(** * A sandboxed file-access engine: [SecureFileManager]

    Shallow embedding of [src/file_operations/__init__.py].  The policy
    functions ([_is_path_allowed], [_is_extension_allowed]) and the six
    operations (read, write, list, search, info, hash) are written as
    computations over an explicit model of the file system the program talks
    to through [pathlib].

    Conventions.
    - A Python [str] and a Python [bytes] are both a [string] of 8-bit
      characters: text is kept in its UTF-8 encoding, so
      [len(content.encode('utf-8'))] is [String.length].  [str.lower] and
      [str.strip] are the ASCII ones.
    - A [Path] object is the string it was built from; [name], [suffix],
      [parent] and [str(path)] are functions of that string.
    - Time stamps, permission bits and MIME types of [_get_file_info] are not
      represented. *)

From stdpp Require Import base option list gmap strings sorting.
From Stdlib Require Import ZArith Ascii String Lia.
Open Scope string_scope.
Open Scope Z_scope.

(** ** Strings as Python uses them *)

Module Str.

Definition len (s : string) : Z := Z.of_nat (String.length s).

Definition lower_char (a : ascii) : ascii :=
  let n := N_of_ascii a in
  if ((65 <=? n) && (n <=? 90))%N then ascii_of_N (n + 32) else a.

(** [s.isascii()]: every character is below 128. *)
Definition is_ascii (s : string) : bool :=
  forallb (λ a, (N_of_ascii a <? 128)%N) (list_ascii_of_string s).

(** [s.lower()] on ASCII text: the letters A to Z are lowered, every other
    byte is kept.  On a string that satisfies [is_ascii] this is Python's
    [str.lower]; beyond ASCII Python lowers by the Unicode tables, which are
    not modelled. *)
Fixpoint lower (s : string) : string :=
  match s with
  | EmptyString => EmptyString
  | String a s' => String (lower_char a) (lower s')
  end.

(** [s.startswith(p)] *)
Definition startswith (s p : string) : bool := String.prefix p s.

(** [p in s] *)
Fixpoint contains (p s : string) : bool :=
  String.prefix p s ||
  match s with
  | EmptyString => false
  | String _ s' => contains p s'
  end.

(** [s.split(sep)] for a one-character separator *)
Fixpoint split (sep : ascii) (s : string) : list string :=
  match s with
  | EmptyString => [EmptyString]
  | String a s' =>
      if Ascii.eqb a sep then EmptyString :: split sep s'
      else match split sep s' with
           | x :: xs => String a x :: xs
           | [] => [String a EmptyString]
           end
  end.

(** [sep.join(l)] *)
Fixpoint join (sep : string) (l : list string) : string :=
  match l with
  | [] => EmptyString
  | [x] => x
  | x :: xs => x ++ sep ++ join sep xs
  end.

(** [s.rfind(c)]: index of the last occurrence, [-1] when there is none *)
Fixpoint rfind (c : ascii) (s : string) : Z :=
  match s with
  | EmptyString => -1
  | String a s' =>
      let i := rfind c s' in
      if 0 <=? i then i + 1 else if Ascii.eqb a c then 0 else -1
  end.

(** [s[i:]] for [0 <= i] *)
Definition from (i : Z) (s : string) : string :=
  String.substring (Z.to_nat i) (String.length s - Z.to_nat i) s.

(** The characters [str.isspace] accepts below 128. *)
Definition is_space (a : ascii) : bool :=
  let n := N_of_ascii a in
  (((9 <=? n) && (n <=? 13)) || ((28 <=? n) && (n <=? 32)))%N.

Fixpoint lstrip (s : string) : string :=
  match s with
  | EmptyString => EmptyString
  | String a s' => if is_space a then lstrip s' else s
  end.

Fixpoint rstrip (s : string) : string :=
  match s with
  | EmptyString => EmptyString
  | String a s' =>
      match rstrip s' with
      | EmptyString => if is_space a then EmptyString else String a EmptyString
      | r => String a r
      end
  end.

(** [s.strip()] on ASCII text.  On a string that satisfies [is_ascii] this
    is Python's [str.strip]; beyond ASCII Python also removes the Unicode
    white space, which is not modelled. *)
Definition strip (s : string) : string := rstrip (lstrip s).

Definition bytes_of (s : string) : list N := map N_of_ascii (list_ascii_of_string s).

Definition cont (b : N) : bool := ((128 <=? b) && (b <=? 191))%N.

(** Well-formed UTF-8 (no overlong forms, no surrogates, at most U+10FFFF):
    what [bytes.decode('utf-8')] accepts. *)
Fixpoint utf8_ok (bs : list N) : bool :=
  match bs with
  | [] => true
  | b0 :: r0 =>
      if (b0 <=? 127)%N then utf8_ok r0
      else match r0 with
      | [] => false
      | b1 :: r1 =>
          if ((194 <=? b0) && (b0 <=? 223))%N then cont b1 && utf8_ok r1
          else match r1 with
          | [] => false
          | b2 :: r2 =>
              if ((224 <=? b0) && (b0 <=? 239))%N then
                cont b1 && cont b2
                && (if (b0 =? 224)%N then (160 <=? b1)%N else true)
                && (if (b0 =? 237)%N then (b1 <=? 159)%N else true)
                && utf8_ok r2
              else match r2 with
              | [] => false
              | b3 :: r3 =>
                  ((240 <=? b0) && (b0 <=? 244))%N
                  && cont b1 && cont b2 && cont b3
                  && (if (b0 =? 240)%N then (144 <=? b1)%N else true)
                  && (if (b0 =? 244)%N then (b1 <=? 143)%N else true)
                  && utf8_ok r3
              end
          end
      end
  end.

Definition utf8_valid (s : string) : bool := utf8_ok (bytes_of s).

Definition CR : ascii := ascii_of_N 13.
Definition LF : ascii := ascii_of_N 10.

(** Text mode with [newline=None]: CR LF and a lone CR are read as LF. *)
Fixpoint universal_newlines (s : string) : string :=
  match s with
  | EmptyString => EmptyString
  | String a s' =>
      if Ascii.eqb a CR then
        match s' with
        | String b s'' =>
            if Ascii.eqb b LF then String LF (universal_newlines s'')
            else String LF (universal_newlines s')
        | EmptyString => String LF EmptyString
        end
      else String a (universal_newlines s')
  end.

End Str.

(** ** [pathlib.PurePosixPath] *)

Module PurePath.

Definition SEP : ascii := "/"%char.

(** The parts after the root: empty and [.] components are dropped when a
    path is parsed. *)
Definition components (p : string) : list string :=
  filter (λ c, c ≠ "" ∧ c ≠ ".") (Str.split SEP p).

Definition is_absolute (p : string) : bool := Str.startswith p "/".

Definition of_components (abs : bool) (cs : list string) : string :=
  match abs, cs with
  | true, _ => "/" ++ Str.join "/" cs
  | false, [] => "."
  | false, _ => Str.join "/" cs
  end.

(** [str(path)] *)
Definition str (p : string) : string := of_components (is_absolute p) (components p).

(** [path.name] *)
Definition name (p : string) : string := List.last (components p) "".

(** [path.suffix] *)
Definition suffix (p : string) : string :=
  let n := name p in
  let i := Str.rfind "."%char n in
  if (0 <? i) && (i <? Str.len n - 1) then Str.from i n else "".

(** [path.parent] *)
Definition parent (p : string) : string :=
  of_components (is_absolute p) (List.removelast (components p)).

(** [path / rel] *)
Definition joinpath (p rel : string) : string :=
  of_components (is_absolute p) (components p ++ components rel).

End PurePath.

(** ** The file system the program runs against *)

(** Exceptions the platform can raise; all of them are subclasses of Python's
    [Exception]. *)
Inductive exn :=
| RuntimeError | OSError | PermissionError | UnicodeDecodeError
| FileNotFoundError | FileExistsError | IsADirectoryError | NotADirectoryError.

#[global] Instance exn_eq_dec : EqDecision exn.
Proof. solve_decision. Defined.

(** The [pathlib] calls that touch storage.  [SysWriteText] stands for the
    opening of the target by [write_text]; [SysWriteData k] for the transfer
    of the content to the opened file at the moment [k] bytes have reached
    it, where a full device, a quota or an input-output error can still stop
    the call. *)
Inductive syscall :=
| SysExists | SysIsFile | SysIsDir | SysStat
| SysReadText | SysReadBytes | SysWriteText | SysMkdir
| SysIterdir | SysRglob
| SysWriteData (sent : nat).

#[global] Instance syscall_eq_dec : EqDecision syscall.
Proof. solve_decision. Defined.

Inductive node :=
| Dir
| File (data : string).

(** A world: the directory tree keyed by canonical absolute path, the
    platform's [Path.resolve] (working directory and symbolic links, [None]
    when resolution raises, as on a symbolic-link loop), the faults the
    platform injects (permissions, device errors), and the journal of the
    storage calls made so far, newest first. *)
Record World := mkWorld {
  canon : string → option string;
  faults : syscall → string → option exn;
  store : gmap string node;
  journal : list (syscall * string);
}.

Definition set_store (st : gmap string node) (w : World) : World :=
  mkWorld (canon w) (faults w) st (journal w).

Definition record_call (c : syscall) (p : string) (w : World) : World :=
  mkWorld (canon w) (faults w) (store w) ((c, p) :: journal w).

(** The node a path leads to, symbolic links followed. *)
Definition node_at (w : World) (p : string) : option node :=
  c ← canon w p; store w !! c.

(** The st_size the platform reports for a directory. *)
Definition DIR_SIZE : Z := 4096.

(** *** Computations that may raise *)

Inductive outcome (A : Type) :=
| Returned (a : A)
| Raised (e : exn).

Arguments Returned {A} a.
Arguments Raised {A} e.

Definition M (A : Type) : Type := World → outcome A * World.

#[global] Instance M_ret : MRet M := λ A a w, (Returned a, w).

#[global] Instance M_bind : MBind M := λ A B f m w,
  match m w with
  | (Returned a, w') => f a w'
  | (Raised e, w') => (Raised e, w')
  end.

Definition raise {A} (e : exn) : M A := λ w, (Raised e, w).

(** [try: body / except <classes> as e: handler e]; an exception outside
    [classes] keeps propagating. *)
Definition try_catch {A} (body : M A) (classes : exn → bool) (handler : exn → M A) : M A :=
  λ w, match body w with
       | (Returned a, w') => (Returned a, w')
       | (Raised e, w') => if classes e then handler e w' else (Raised e, w')
       end.

(** [except Exception] *)
Definition Exception : exn → bool := λ _, true.

Definition try_except {A} (body : M A) (handler : exn → M A) : M A :=
  try_catch body Exception handler.

(** [for x in xs: acc = body x acc] *)
Fixpoint for_each {A S} (xs : list A) (body : A → S → M S) (acc : S) : M S :=
  match xs with
  | [] => mret acc
  | x :: xs' => acc' ← body x acc; for_each xs' body acc'
  end.

(** *** [pathlib.Path] *)

Module Path.

(** A storage call: journalled, then subject to the platform's faults. *)
Definition sys {A} (c : syscall) (p : string) (k : World → outcome A * World) : M A :=
  λ w, let w1 := record_call c p w in
       match faults w c p with
       | Some e => (Raised e, w1)
       | None => k w1
       end.

(** [path.resolve()] *)
Definition resolve (p : string) : M string :=
  λ w, match canon w p with
       | Some c => (Returned c, w)
       | None => (Raised RuntimeError, w)
       end.

(** [path.exists()] *)
Definition exists_ (p : string) : M bool :=
  sys SysExists p (λ w, (Returned (bool_decide (is_Some (node_at w p))), w)).

(** [path.is_file()] *)
Definition is_file (p : string) : M bool :=
  sys SysIsFile p (λ w,
    (Returned (match node_at w p with Some (File _) => true | _ => false end), w)).

(** [path.is_dir()] *)
Definition is_dir (p : string) : M bool :=
  sys SysIsDir p (λ w,
    (Returned (match node_at w p with Some Dir => true | _ => false end), w)).

(** [path.stat().st_size] *)
Definition stat (p : string) : M Z :=
  sys SysStat p (λ w,
    match node_at w p with
    | Some (File d) => (Returned (Str.len d), w)
    | Some Dir => (Returned DIR_SIZE, w)
    | None => (Raised FileNotFoundError, w)
    end).

(** [path.read_bytes()] *)
Definition read_bytes (p : string) : M string :=
  sys SysReadBytes p (λ w,
    match node_at w p with
    | Some (File d) => (Returned d, w)
    | Some Dir => (Raised IsADirectoryError, w)
    | None => (Raised FileNotFoundError, w)
    end).

(** [path.read_text(encoding='utf-8')] *)
Definition read_text (p : string) : M string :=
  sys SysReadText p (λ w,
    match node_at w p with
    | Some (File d) =>
        if Str.utf8_valid d then (Returned (Str.universal_newlines d), w)
        else (Raised UnicodeDecodeError, w)
    | Some Dir => (Raised IsADirectoryError, w)
    | None => (Raised FileNotFoundError, w)
    end).

(** The bytes of [content] that reach the opened file, and the exception
    that stopped the transfer, if one did: [fault_at k] is what the platform
    raises once [k] bytes are in the file. *)
Fixpoint transfer (fault_at : nat → option exn) (sent : nat) (content : string)
  : string * option exn :=
  match fault_at sent with
  | Some e => (EmptyString, Some e)
  | None =>
      match content with
      | EmptyString => (EmptyString, None)
      | String a rest =>
          let '(d, r) := transfer fault_at (S sent) rest in (String a d, r)
      end
  end.

(** [path.write_text(content, encoding='utf-8')]: the target is opened with
    mode ['w'], which creates it or empties it, and the content is then
    written to it.  A call that fails at the opening leaves the tree as it
    was; a call that fails later leaves the target holding the part of the
    content written so far. *)
Definition write_text (p content : string) : M unit :=
  sys SysWriteText p (λ w,
    match canon w p with
    | None => (Raised OSError, w)
    | Some c =>
        match store w !! PurePath.parent c, store w !! c with
        | None, _ => (Raised FileNotFoundError, w)
        | Some (File _), _ => (Raised NotADirectoryError, w)
        | Some Dir, Some Dir => (Raised IsADirectoryError, w)
        | Some Dir, _ =>
            match transfer (λ k, faults w (SysWriteData k) p) 0 content with
            | (d, Some e) => (Raised e, set_store (<[c := File d]> (store w)) w)
            | (d, None) => (Returned (), set_store (<[c := File d]> (store w)) w)
            end
        end
    end).

Fixpoint inits {A} (l : list A) : list (list A) :=
  match l with
  | [] => [[]]
  | x :: l' => [] :: map (cons x) (inits l')
  end.

(** The directories from the root down to [c] itself, root excluded. *)
Definition chain (c : string) : list string :=
  map (PurePath.of_components true) (tail (inits (PurePath.components c))).

Fixpoint make_dirs (ps : list string) (st : gmap string node)
  : option exn * gmap string node :=
  match ps with
  | [] => (None, st)
  | p :: ps' =>
      match st !! p with
      | Some (File _) => (Some FileExistsError, st)
      | Some Dir => make_dirs ps' st
      | None => make_dirs ps' (<[p := Dir]> st)
      end
  end.

(** [path.mkdir(parents=True, exist_ok=True)] *)
Definition mkdir_parents (p : string) : M unit :=
  sys SysMkdir p (λ w,
    match canon w p with
    | None => (Raised OSError, w)
    | Some c =>
        match make_dirs (chain c) (store w) with
        | (Some e, st) => (Raised e, set_store st w)
        | (None, st) => (Returned (), set_store st w)
        end
    end).

Definition keys (w : World) : list string := (map_to_list (store w)).*1.

(** [list(path.iterdir())] *)
Definition iterdir (p : string) : M (list string) :=
  sys SysIterdir p (λ w,
    match canon w p with
    | None => (Raised OSError, w)
    | Some c =>
        match store w !! c with
        | None => (Raised FileNotFoundError, w)
        | Some (File _) => (Raised NotADirectoryError, w)
        | Some Dir =>
            (Returned
               (map (λ k, PurePath.joinpath p (PurePath.name k))
                    (filter (λ k, PurePath.parent k = c ∧ k ≠ c) (keys w))), w)
        end
    end).

(** [list(path.rglob('*'))]: every descendant, files and directories. *)
Definition rglob (p : string) : M (list string) :=
  sys SysRglob p (λ w,
    match canon w p with
    | None => (Returned [], w)
    | Some c =>
        let cs := PurePath.components c in
        (Returned
           (map (λ k, PurePath.joinpath p
                        (Str.join "/" (drop (List.length cs) (PurePath.components k))))
                (filter (λ k, take (List.length cs) (PurePath.components k) = cs
                              ∧ PurePath.components k ≠ cs) (keys w))), w)
    end).

End Path.

(** ** Security configuration *)

(** The module-level constants the manager reads. *)
Record Config := mkConfig {
  MAX_FILE_SIZE : Z;
  ALLOWED_EXTENSIONS : gset string;
  DANGEROUS_EXTENSIONS : gset string;
}.

(** The values in the source. *)
Definition module_config : Config := {|
  MAX_FILE_SIZE := 10 * 1024 * 1024;
  ALLOWED_EXTENSIONS :=
    {[ ".txt"; ".md"; ".json"; ".yaml"; ".yml"; ".csv"; ".log";
       ".py"; ".js"; ".html"; ".css"; ".xml"; ".ini"; ".cfg" ]};
  DANGEROUS_EXTENSIONS :=
    {[ ".exe"; ".bat"; ".cmd"; ".sh"; ".ps1"; ".dll"; ".so" ]};
|}.

(** ** Results *)

Inductive operation := OpRead | OpWrite | OpList | OpSearch | OpInfo | OpHash.

(** The error payloads, one constructor per message of the source. *)
Inductive error :=
| AccessDenied                               (* Access denied: Path not in allowed directories *)
| FileNotFound (file_path : string)          (* File not found: ... *)
| NotAFile (file_path : string)              (* Not a file: ... *)
| FileTypeNotAllowed (suffix : string)       (* File type not allowed: ... *)
| FileTooLarge (file_size size_limit : Z)    (* File too large: ... bytes (limit: ...) *)
| ContentTooLarge (limit : Z)                (* Content too large (limit: ... bytes) *)
| ParentMissing (parent : string)            (* Parent directory does not exist: ... *)
| DirectoryNotFound (dir_path : string)      (* Directory not found: ... *)
| NotADirectory (dir_path : string)          (* Not a directory: ... *)
| InvalidSearchDirectory (search_dir : string) (* Invalid search directory: ... *)
| TooLargeForHashing                         (* File too large for hashing *)
| InfoUnavailable (e : exn)                  (* Error getting file info: Cannot access file info: ... *)
| Failed (op : operation) (e : exn).         (* Failed to read file: ..., and its siblings *)

Inductive result (A : Type) :=
| Ok (payload : A)
| Err (e : error).

Arguments Ok {A} payload.
Arguments Err {A} e.

Record FileInfo := mkFileInfo {
  fi_name : string;
  fi_path : string;
  fi_size : Z;
  fi_is_file : bool;
  fi_is_dir : bool;
  fi_extension : string;
}.

(** What [_get_file_info] returns: the metadata, or its own error entry. *)
Inductive InfoDict :=
| Info (i : FileInfo)
| InfoError (e : exn).

(** The [content] of a read, with its [content_type] and [encoding]: text
    decoded as UTF-8, or the marker that stands for undecodable bytes. *)
Inductive Content :=
| Text (s : string)
| BinaryData (nbytes : Z).                   (* <binary data: n bytes> *)

Record ReadPayload := mkRead {
  rd_content : Content;
  rd_size : Z;
  rd_file_info : InfoDict;
}.

(** The [success] flag and the [message] of a write are constants and are
    left out. *)
Record WritePayload := mkWrite {
  wr_size : Z;
  wr_file_info : InfoDict;
}.

Record ListPayload := mkList {
  ls_directory : string;
  ls_items : list InfoDict;
  ls_total_items : Z;
  ls_files : Z;
  ls_directories : Z;
}.

Inductive MatchType := filename | content.

Record SearchMatch := mkMatch {
  sm_info : InfoDict;
  sm_match_type : MatchType;
  sm_matching_lines : option (list (Z * string));
}.

Record SearchPayload := mkSearch {
  sr_search_directory : string;
  sr_pattern : string;
  sr_matches : list SearchMatch;
  sr_total_matches : Z;
}.

Record HashPayload := mkHash {
  hs_file : string;
  hs_size : Z;
  hs_md5 : string;
  hs_sha1 : string;
  hs_sha256 : string;
}.

(** ** The manager *)

Record SecureFileManager := mkManager {
  allowed_dirs : gset string;
}.

(** [x or d] on an optional integer: [None] and [0] are falsy. *)
Definition or_else (x : option Z) (d : Z) : Z :=
  match x with
  | Some n => if n =? 0 then d else n
  | None => d
  end.

(** [enumerate(l, start)] *)
Fixpoint enumerate {A} (start : Z) (l : list A) : list (Z * A) :=
  match l with
  | [] => []
  | x :: l' => (start, x) :: enumerate (start + 1) l'
  end.

Fixpoint insert_by {A} (key : A → string) (x : A) (l : list A) : list A :=
  match l with
  | [] => [x]
  | y :: l' => if String.leb (key x) (key y) then x :: l else y :: insert_by key x l'
  end.

(** [l.sort(key=key)], stable *)
Definition sort_by {A} (key : A → string) (l : list A) : list A :=
  foldr (insert_by key) [] l.

Definition info_name (d : InfoDict) : string :=
  match d with Info i => fi_name i | InfoError _ => "" end.

Definition info_is_file (d : InfoDict) : bool :=
  match d with Info i => fi_is_file i | InfoError _ => false end.

Definition info_is_dir (d : InfoDict) : bool :=
  match d with Info i => fi_is_dir i | InfoError _ => false end.

(** [SecureFileManager.__init__]: the given directories, or the defaults
    (home and working directory, known only at start-up) when none are
    given, each one resolved. *)
Definition init (DEFAULT_ALLOWED_DIRS : gset string) (dirs : option (gset string))
  : M SecureFileManager :=
  let chosen := match dirs with
                | Some d => if decide (d = ∅) then DEFAULT_ALLOWED_DIRS else d
                | None => DEFAULT_ALLOWED_DIRS
                end in
  resolved ← for_each (elements chosen)
                (λ d (acc : gset string), c ← Path.resolve d; mret ({[c]} ∪ acc)) ∅;
  mret (mkManager resolved).

Section Engine.

Context (cfg : Config) (self : SecureFileManager).
(** [hashlib]'s digests, rendered in hexadecimal. *)
Context (md5 sha1 sha256 : string → string).

Definition _is_path_allowed (file_path : string) : M bool :=
  try_except
    (resolved_path ← Path.resolve file_path;
     mret (bool_decide
             (set_Exists (λ allowed_dir, Str.startswith resolved_path allowed_dir = true)
                         (allowed_dirs self))))
    (λ _, mret false).

Definition _is_extension_allowed (file_path : string) : bool :=
  let extension := Str.lower (PurePath.suffix file_path) in
  if bool_decide (extension ∈ DANGEROUS_EXTENSIONS cfg) then false
  else if bool_decide (ALLOWED_EXTENSIONS cfg ≠ ∅)
          && bool_decide (extension ∉ ALLOWED_EXTENSIONS cfg) then false
  else true.

Definition _get_file_info (file_path : string) : M InfoDict :=
  try_except
    (st_size ← Path.stat file_path;
     is_file ← Path.is_file file_path;
     is_dir ← Path.is_dir file_path;
     mret (Info {| fi_name := PurePath.name file_path;
                   fi_path := PurePath.str file_path;
                   fi_size := st_size;
                   fi_is_file := is_file;
                   fi_is_dir := is_dir;
                   fi_extension := Str.lower (PurePath.suffix file_path) |}))
    (λ e, mret (InfoError e)).

Definition read_file (file_path : string) (max_size : option Z) : M (result ReadPayload) :=
  try_except
    (let path := file_path in
     allowed ← _is_path_allowed path;
     if negb allowed then mret (Err AccessDenied) else
     ex ← Path.exists_ path;
     if negb ex then mret (Err (FileNotFound file_path)) else
     is_file ← Path.is_file path;
     if negb is_file then mret (Err (NotAFile file_path)) else
     if negb (_is_extension_allowed path)
     then mret (Err (FileTypeNotAllowed (PurePath.suffix path))) else
     file_size ← Path.stat path;
     let size_limit := or_else max_size (MAX_FILE_SIZE cfg) in
     if file_size >? size_limit then mret (Err (FileTooLarge file_size size_limit)) else
     body ← try_catch
              (text ← Path.read_text path; mret (Text text))
              (λ e, bool_decide (e = UnicodeDecodeError))
              (λ _, raw ← Path.read_bytes path; mret (BinaryData (Str.len raw)));
     file_info ← _get_file_info path;
     mret (Ok {| rd_content := body; rd_size := file_size; rd_file_info := file_info |}))
    (λ e, mret (Err (Failed OpRead e))).

Definition write_file (file_path content : string) (create_dirs : bool)
  : M (result WritePayload) :=
  try_except
    (let path := file_path in
     allowed ← _is_path_allowed path;
     if negb allowed then mret (Err AccessDenied) else
     if negb (_is_extension_allowed path)
     then mret (Err (FileTypeNotAllowed (PurePath.suffix path))) else
     if Str.len content >? MAX_FILE_SIZE cfg
     then mret (Err (ContentTooLarge (MAX_FILE_SIZE cfg))) else
     (if create_dirs then
        parent_exists ← Path.exists_ (PurePath.parent path);
        if negb parent_exists then Path.mkdir_parents (PurePath.parent path) else mret ()
      else mret ());;
     parent_exists ← Path.exists_ (PurePath.parent path);
     if negb parent_exists then mret (Err (ParentMissing (PurePath.parent path))) else
     Path.write_text path content;;
     file_info ← _get_file_info path;
     mret (Ok {| wr_size := Str.len content; wr_file_info := file_info |}))
    (λ e, mret (Err (Failed OpWrite e))).

Definition list_directory (dir_path : string) (include_hidden : bool)
  : M (result ListPayload) :=
  try_except
    (let path := dir_path in
     allowed ← _is_path_allowed path;
     if negb allowed then mret (Err AccessDenied) else
     ex ← Path.exists_ path;
     if negb ex then mret (Err (DirectoryNotFound dir_path)) else
     is_dir ← Path.is_dir path;
     if negb is_dir then mret (Err (NotADirectory dir_path)) else
     entries ← Path.iterdir path;
     items ← for_each entries
               (λ item (items : list InfoDict),
                  if negb include_hidden && Str.startswith (PurePath.name item) "."
                  then mret items
                  else item_info ← _get_file_info item; mret (items ++ [item_info])%list)
               [];
     let items := sort_by (λ x, Str.lower (info_name x)) items in
     mret (Ok {| ls_directory := PurePath.str path;
                 ls_items := items;
                 ls_total_items := Z.of_nat (List.length items);
                 ls_files := Z.of_nat (List.length (filter (λ i, info_is_file i = true) items));
                 ls_directories :=
                   Z.of_nat (List.length (filter (λ i, info_is_dir i = true) items)) |}))
    (λ e, mret (Err (Failed OpList e))).

(** The lines of [content] that contain the pattern, numbered from 1. *)
Definition find_matching_lines (pattern content : string) : list (Z * string) :=
  omap (λ '(i, line),
          if Str.contains (Str.lower pattern) (Str.lower line)
          then Some (i, Str.strip line) else None)
       (enumerate 1 (Str.split Str.LF content)).

(** The content search of one entry; [match_info] is the entry's record so
    far and is returned updated. *)
Definition search_content (pattern item : string) (match_info : SearchMatch)
  : M SearchMatch :=
  try_catch
    (st_size ← Path.stat item;
     if st_size <=? MAX_FILE_SIZE cfg then
       text ← Path.read_text item;
       if Str.contains (Str.lower pattern) (Str.lower text) then
         let matching_lines := find_matching_lines pattern text in
         mret {| sm_info := sm_info match_info;
                 sm_match_type := content;
                 sm_matching_lines := Some (take 10 matching_lines) |}
       else mret match_info
     else mret match_info)
    (λ e, bool_decide (e = UnicodeDecodeError) || bool_decide (e = PermissionError))
    (λ _, mret match_info).

(** One turn of the loop over [path.rglob('*')]. *)
Definition search_item (pattern : string) (include_content : bool)
    (item : string) (matches : list SearchMatch) : M (list SearchMatch) :=
  allowed ← _is_path_allowed item;
  if negb allowed then mret matches else
  if Str.contains (Str.lower pattern) (Str.lower (PurePath.name item)) then
    info ← _get_file_info item;
    let match_info := {| sm_info := info; sm_match_type := filename;
                         sm_matching_lines := None |} in
    match_info ←
      (if include_content then
         is_file ← Path.is_file item;
         if is_file && _is_extension_allowed item
         then search_content pattern item match_info
         else mret match_info
       else mret match_info);
    mret (matches ++ [match_info])%list
  else mret matches.

Definition search_files (search_dir pattern : string) (include_content : bool)
  : M (result SearchPayload) :=
  try_except
    (let path := search_dir in
     allowed ← _is_path_allowed path;
     if negb allowed then mret (Err AccessDenied) else
     ex ← Path.exists_ path;
     is_dir ← (if ex then Path.is_dir path else mret false);
     if negb ex || negb is_dir then mret (Err (InvalidSearchDirectory search_dir)) else
     entries ← Path.rglob path;
     matches ← for_each entries (search_item pattern include_content) [];
     mret (Ok {| sr_search_directory := PurePath.str path;
                 sr_pattern := pattern;
                 sr_matches := matches;
                 sr_total_matches := Z.of_nat (List.length matches) |}))
    (λ e, mret (Err (Failed OpSearch e))).

Definition get_file_hash (file_path : string) : M (result HashPayload) :=
  try_except
    (let path := file_path in
     allowed ← _is_path_allowed path;
     if negb allowed then mret (Err AccessDenied) else
     ex ← Path.exists_ path;
     is_file ← (if ex then Path.is_file path else mret false);
     if negb ex || negb is_file then mret (Err (FileNotFound file_path)) else
     st_size ← Path.stat path;
     if st_size >? MAX_FILE_SIZE cfg then mret (Err TooLargeForHashing) else
     raw ← Path.read_bytes path;
     mret (Ok {| hs_file := PurePath.str path;
                 hs_size := Str.len raw;
                 hs_md5 := md5 raw;
                 hs_sha1 := sha1 raw;
                 hs_sha256 := sha256 raw |}))
    (λ e, mret (Err (Failed OpHash e))).

(** The [try] block of [handle_get_file_info], the sixth operation; the
    payload is the metadata the handler renders. *)
Definition get_file_info (file_path : string) : M (result FileInfo) :=
  try_except
    (let path := file_path in
     allowed ← _is_path_allowed path;
     if negb allowed then mret (Err AccessDenied) else
     ex ← Path.exists_ path;
     if negb ex then mret (Err (FileNotFound file_path)) else
     info ← _get_file_info path;
     match info with
     | InfoError e => mret (Err (InfoUnavailable e))
     | Info i => mret (Ok i)
     end)
    (λ e, mret (Err (Failed OpInfo e))).

End Engine.

(** ** Concrete worlds *)

Module Posix.

(** [..] removes the component before it; at the root it is dropped. *)
Fixpoint collapse (stack : list string) (cs : list string) : list string :=
  match cs with
  | [] => rev stack
  | c :: cs' =>
      if decide (c = "..") then collapse (tail stack) cs'
      else collapse (c :: stack) cs'
  end.

(** [Path.resolve] on a tree without symbolic links, from working directory
    [cwd]. *)
Definition resolve (cwd : list string) (p : string) : option string :=
  let cs := if PurePath.is_absolute p then PurePath.components p
            else (cwd ++ PurePath.components p)%list in
  Some (PurePath.of_components true (collapse [] cs)).

Definition no_faults : syscall → string → option exn := λ _ _, None.

(** A world with working directory [/], no symbolic links and no faults. *)
Definition world (st : gmap string node) : World :=
  mkWorld (resolve []) no_faults st [].

End Posix.

(** The scenario of the specification: allowed root [/sandbox], one file
    [/sandbox/notes.txt] holding [hello world]. *)
Definition sandbox_store : gmap string node :=
  {[ "/" := Dir; "/sandbox" := Dir; "/sandbox/notes.txt" := File "hello world";
     "/etc" := Dir; "/etc/passwd" := File "root:x:0:0" ]}.

Definition sandbox_world : World := Posix.world sandbox_store.

Definition sandbox_manager : SecureFileManager := mkManager {[ "/sandbox" ]}.

(** * Reasoning about computations *)

(** [wp m Q w]: running [m] from [w] ends in an outcome and a world that
    satisfy [Q]. *)
Definition wp {A} (m : M A) (Q : outcome A → World → Prop) (w : World) : Prop :=
  Q (m w).1 (m w).2.

(** The continuation of a bind: run [f] on a returned value, hand a raised
    exception to [Q]. *)
Definition after {A B} (f : A → M B) (Q : outcome B → World → Prop)
  : outcome A → World → Prop :=
  λ o w, match o with
         | Returned a => wp (f a) Q w
         | Raised e => Q (Raised e) w
         end.

(** ** The path check as a function of the world *)

(** The verdict of [_is_path_allowed]: some allowed directory is a string
    prefix of the resolved path; [False] when resolution raises. *)
Definition allowed_in (self : SecureFileManager) (w : World) (p : string) : bool :=
  match canon w p with
  | Some c => bool_decide (set_Exists (λ d, Str.startswith c d = true) (allowed_dirs self))
  | None => false
  end.

(** The containment the path check is documented to decide: [c] is [root]
    or lies below it, component by component. *)
Definition within (root c : string) : bool :=
  bool_decide (take (List.length (PurePath.components root)) (PurePath.components c)
               = PurePath.components root).

(** No faults on the storage calls made on [p]. *)
Definition quiet (w : World) (p : string) : Prop := ∀ c, faults w c p = None.

(** A configuration that lists [.sh] as both allowed and dangerous. *)
Definition overlapping_config : Config := {|
  MAX_FILE_SIZE := 1024;
  ALLOWED_EXTENSIONS := {[ ".txt"; ".sh" ]};
  DANGEROUS_EXTENSIONS := {[ ".sh"; ".exe" ]};
|}.

(** * Precondition order *)

(** A request to the engine, one constructor per tool of
    [handle_call_tool]. *)
Inductive request :=
| ReadFile (file_path : string) (max_size : option Z)
| WriteFile (file_path text : string) (create_dirs : bool)
| ListDirectory (dir_path : string) (include_hidden : bool)
| SearchFiles (search_dir pattern : string) (include_content : bool)
| GetFileInfo (file_path : string)
| GetFileHash (file_path : string).

Definition target (req : request) : string :=
  match req with
  | ReadFile p _ | WriteFile p _ _ | ListDirectory p _
  | SearchFiles p _ _ | GetFileInfo p | GetFileHash p => p
  end.

Definition error_of {A} (x : outcome (result A) * World) : option error :=
  match x.1 with
  | Returned (Err e) => Some e
  | _ => None
  end.

(** The preconditions of the specification's table of operations. *)
Inductive precondition :=
| PathAllowed | TargetExists | IsFile | IsDirectory
| ExtensionAllowed | SizeWithinLimit | ParentExists.

(** The order in which the table lists them, per operation. *)
Definition listed_order (req : request) : list precondition :=
  match req with
  | ReadFile _ _ => [PathAllowed; TargetExists; IsFile; ExtensionAllowed; SizeWithinLimit]
  | WriteFile _ _ _ => [PathAllowed; ExtensionAllowed; SizeWithinLimit; ParentExists]
  | ListDirectory _ _ => [PathAllowed; TargetExists; IsDirectory]
  | SearchFiles _ _ _ => [PathAllowed; TargetExists; IsDirectory]
  | GetFileInfo _ => [PathAllowed; TargetExists]
  | GetFileHash _ => [PathAllowed; TargetExists; IsFile; SizeWithinLimit]
  end.

Definition size_at (w : World) (p : string) : Z :=
  match node_at w p with
  | Some (File d) => Str.len d
  | Some Dir => DIR_SIZE
  | None => 0
  end.

Section Order.

Context (cfg : Config) (self : SecureFileManager).
Context (md5 sha1 sha256 : string → string).

(** The error payload of the answer to a request, if it is refused. *)
Definition refusal (req : request) (w : World) : option error :=
  match req with
  | ReadFile p max_size => error_of (read_file cfg self p max_size w)
  | WriteFile p text create_dirs => error_of (write_file cfg self p text create_dirs w)
  | ListDirectory p include_hidden => error_of (list_directory self p include_hidden w)
  | SearchFiles p pattern include_content =>
      error_of (search_files cfg self p pattern include_content w)
  | GetFileInfo p => error_of (get_file_info self p w)
  | GetFileHash p => error_of (get_file_hash cfg self md5 sha1 sha256 p w)
  end.

(** The world after the request was served. *)
Definition world_after (req : request) (w : World) : World :=
  match req with
  | ReadFile p max_size => (read_file cfg self p max_size w).2
  | WriteFile p text create_dirs => (write_file cfg self p text create_dirs w).2
  | ListDirectory p include_hidden => (list_directory self p include_hidden w).2
  | SearchFiles p pattern include_content =>
      (search_files cfg self p pattern include_content w).2
  | GetFileInfo p => (get_file_info self p w).2
  | GetFileHash p => (get_file_hash cfg self md5 sha1 sha256 p w).2
  end.

(** Whether a precondition of the table holds of a request in a world. *)
Definition holds (w : World) (req : request) (pc : precondition) : bool :=
  let p := target req in
  match pc with
  | PathAllowed => allowed_in self w p
  | TargetExists => bool_decide (is_Some (node_at w p))
  | IsFile => match node_at w p with Some (File _) => true | _ => false end
  | IsDirectory => match node_at w p with Some Dir => true | _ => false end
  | ExtensionAllowed => _is_extension_allowed cfg p
  | SizeWithinLimit =>
      match req with
      | ReadFile _ max_size => size_at w p <=? or_else max_size (MAX_FILE_SIZE cfg)
      | WriteFile _ text _ => Str.len text <=? MAX_FILE_SIZE cfg
      | _ => size_at w p <=? MAX_FILE_SIZE cfg
      end
  | ParentExists =>
      match req with
      | WriteFile _ _ create_dirs =>
          create_dirs || bool_decide (is_Some (node_at w (PurePath.parent p)))
      | _ => true
      end
  end.

Definition first_violated (w : World) (req : request) : option precondition :=
  List.find (λ pc, negb (holds w req pc)) (listed_order req).

(** The error payload the source returns for a violated precondition. *)
Definition reported (w : World) (req : request) (pc : precondition) : error :=
  let p := target req in
  match pc, req with
  | PathAllowed, _ => AccessDenied
  | TargetExists, ListDirectory _ _ => DirectoryNotFound p
  | TargetExists, SearchFiles _ _ _ => InvalidSearchDirectory p
  | TargetExists, _ => FileNotFound p
  | IsFile, GetFileHash _ => FileNotFound p
  | IsFile, _ => NotAFile p
  | IsDirectory, SearchFiles _ _ _ => InvalidSearchDirectory p
  | IsDirectory, _ => NotADirectory p
  | ExtensionAllowed, _ => FileTypeNotAllowed (PurePath.suffix p)
  | SizeWithinLimit, ReadFile _ max_size =>
      FileTooLarge (size_at w p) (or_else max_size (MAX_FILE_SIZE cfg))
  | SizeWithinLimit, WriteFile _ _ _ => ContentTooLarge (MAX_FILE_SIZE cfg)
  | SizeWithinLimit, _ => TooLargeForHashing
  | ParentExists, _ => ParentMissing (PurePath.parent p)
  end.

(** No faults on the calls that evaluate the preconditions of [req]. *)
Definition quiet_for (w : World) (req : request) : Prop :=
  quiet w (target req) ∧ quiet w (PurePath.parent (target req)).

End Order.

(** The classes the specification's ordering rule speaks of, in the order
    it gives them: the policy checks (on the path and on the extension), the
    checks of existence and type (of the target, and of the parent directory
    of a write), and the size check. *)
Definition class_rank (pc : precondition) : nat :=
  match pc with
  | PathAllowed | ExtensionAllowed => 0%nat
  | TargetExists | IsFile | IsDirectory | ParentExists => 1%nat
  | SizeWithinLimit => 2%nat
  end.

Fixpoint nondecreasing (l : list nat) : bool :=
  match l with
  | a :: (b :: _) as l' => (a <=? b)%nat && nondecreasing l'
  | _ => true
  end.

(** Whether the table lists the preconditions of a request class by class. *)
Definition listed_by_class (req : request) : bool :=
  nondecreasing (map class_rank (listed_order req)).

(** A digest for the examples that do not look at digests. *)
Definition no_digest (_ : string) : string := "".

(** What [read_file] puts in [content] for a file holding [d]. *)
Definition rendered (d : string) : Content :=
  if Str.utf8_valid d then Text (Str.universal_newlines d) else BinaryData (Str.len d).

(** The source's extension lists with another size limit. *)
Definition with_limit (n : Z) : Config :=
  mkConfig n (ALLOWED_EXTENSIONS module_config) (DANGEROUS_EXTENSIONS module_config).

(** ** The per-call limit of [read_file] *)

(** [a * n] *)
Fixpoint repeated (a : ascii) (n : nat) : string :=
  match n with
  | O => EmptyString
  | S n' => String a (repeated a n')
  end.

(** A sandbox holding one file, [/sandbox/big.txt], with the given bytes. *)
Definition archive (d : string) : gmap string node :=
  {[ "/" := Dir; "/sandbox" := Dir; "/sandbox/big.txt" := File d ]}.

(** One byte more than [MAX_FILE_SIZE]: 10485761 letters. *)
Definition oversized : string :=
  repeated "a"%char (Z.to_nat (MAX_FILE_SIZE module_config + 1)).

(** * Containment *)

(** Two sibling directories whose names share a prefix; only [/a/b] is an
    allowed root. *)
Definition sibling_store : gmap string node :=
  {[ "/" := Dir; "/a" := Dir; "/a/b" := Dir; "/a/b/c.txt" := File "inside";
     "/a/bc" := Dir; "/a/bc/secret.txt" := File "top secret" ]}.

Definition sibling_world : World := Posix.world sibling_store.

Definition sibling_manager : SecureFileManager := mkManager {[ "/a/b" ]}.

(** ** What a computation returns *)

(** [yields m R]: whenever [m] returns, the value satisfies [R]. *)
Definition yields {A} (m : M A) (R : A → Prop) : Prop :=
  ∀ w, wp m (λ o _, match o with Returned a => R a | Raised _ => True end) w.

(** ** The cap on matching lines *)

Definition capped (m : SearchMatch) : Prop :=
  ∀ lines, sm_matching_lines m = Some lines → (List.length lines ≤ 10)%nat.

(** A reported entry carries a name that contains the pattern. *)
Definition named (pattern : string) (m : SearchMatch) : Prop :=
  ∀ i, sm_info m = Info i →
       Str.contains (Str.lower pattern) (Str.lower (fi_name i)) = true.

Definition sound (pattern : string) (m : SearchMatch) : Prop :=
  capped m ∧ named pattern m.

(** Fifty lines, each of which contains [hello]. *)
Definition fifty_lines : string :=
  Str.join (String Str.LF EmptyString) (replicate 50 "say hello").

Definition fifty_world : World :=
  Posix.world {[ "/" := Dir; "/sandbox" := Dir; "/sandbox/hello.txt" := File fifty_lines ]}.

(** * The storage calls an operation makes *)

(** [grows P w0 w]: the journal of [w] is the journal of [w0] followed by
    calls that all satisfy [P]. *)
Definition grows (P : syscall * string → Prop) (w0 w : World) : Prop :=
  ∃ calls, journal w = (calls ++ journal w0)%list ∧ Forall P calls.

(** [safe P m]: [m] journals only calls that satisfy [P]. *)
Definition safe {A} (P : syscall * string → Prop) (m : M A) : Prop :=
  ∀ w0 w, grows P w0 w → wp m (λ _ w', grows P w0 w') w.

(** Content is read only from entries whose extension is allowed. *)
Definition reads_allowed (cfg : Config) (call : syscall * string) : Prop :=
  call.1 ≠ SysReadBytes
  ∧ (call.1 = SysReadText → _is_extension_allowed cfg call.2 = true).

(** A sandbox with a file whose name has no extension. *)
Definition readme_world : World :=
  Posix.world {[ "/" := Dir; "/sandbox" := Dir; "/sandbox/README" := File "read me" ]}.

(** ** What an operation leaves alone *)

(** [same_disk w w']: the two worlds have the same resolution, the same
    faults and the same tree; only the journal may differ. *)
Definition same_disk (w w' : World) : Prop :=
  canon w' = canon w ∧ faults w' = faults w ∧ store w' = store w.

(** [readonly m]: [m] never changes the tree. *)
Definition readonly {A} (m : M A) : Prop := ∀ w, same_disk w (m w).2.

(** [journal_free m]: the outcome of [m] and the tree it leaves do not depend
    on the journal; from two worlds with the same disk it has the same
    outcome and ends on the same disk. *)
Definition journal_free {A} (m : M A) : Prop :=
  ∀ w w', same_disk w w' → (m w').1 = (m w).1 ∧ same_disk (m w).2 (m w').2.

(** The tree after a write was stopped midway: the checks had passed, the
    parent of the resolved target is a directory, and the target, which was
    no directory, is now a file holding a part [d] of the text from its
    start; nothing else changed. *)
Definition torn (cfg : Config) (self : SecureFileManager) (p text : string)
    (w w' : World) : Prop :=
  ∃ c d, canon w p = Some c
         ∧ store w' = <[c := File d]> (store w)
         ∧ String.prefix d text = true
         ∧ store w !! PurePath.parent c = Some Dir
         ∧ store w !! c ≠ Some Dir
         ∧ allowed_in self w p = true
         ∧ _is_extension_allowed cfg p = true
         ∧ Str.len text <= MAX_FILE_SIZE cfg.

(** The effect of [write_file] without [create_dirs] on the tree, from world
    [w]: on success the resolved target holds the text and nothing else
    changed; a failure caught by the handler leaves the tree as it was or
    torn at the target; any other answer leaves the tree as it was. *)
Definition written (cfg : Config) (self : SecureFileManager) (p text : string)
    (w : World) (o : outcome (result WritePayload)) (w' : World) : Prop :=
  match o with
  | Returned (Ok payload) =>
      ∃ c, canon w p = Some c
           ∧ store w' = <[c := File text]> (store w)
           ∧ allowed_in self w p = true
           ∧ _is_extension_allowed cfg p = true
           ∧ Str.len text <= MAX_FILE_SIZE cfg
           ∧ wr_size payload = Str.len text
  | Returned (Err (Failed _ _)) => store w' = store w ∨ torn cfg self p text w w'
  | _ => store w' = store w
  end.

(** The sandbox on a device that takes two more bytes into
    [/sandbox/notes.txt] and then reports an error. *)
Definition full_world : World :=
  mkWorld (Posix.resolve [])
          (λ c p, if decide (c = SysWriteData 2 ∧ p = "/sandbox/notes.txt")
                  then Some OSError else None)
          sandbox_store [].

(** A sandbox with a program in it. *)
Definition tool_world : World :=
  Posix.world {[ "/" := Dir; "/sandbox" := Dir; "/sandbox/tool.EXE" := File "MZ" ]}.

(** The directories [__init__] resolves: the ones given, or the defaults
    when none or an empty set is given. *)
Definition chosen_dirs (DEFAULT_ALLOWED_DIRS : gset string) (dirs : option (gset string))
  : gset string :=
  match dirs with
  | Some d => if decide (d = ∅) then DEFAULT_ALLOWED_DIRS else d
  | None => DEFAULT_ALLOWED_DIRS
  end.

(** The order of a listing: by lower-cased name. *)
Definition by_name (a b : InfoDict) : Prop :=
  String.leb (Str.lower (info_name a)) (Str.lower (info_name b)) = true.

(** An entry that a listing shows. *)
Definition shown (include_hidden : bool) (item : string) : bool :=
  include_hidden || negb (Str.startswith (PurePath.name item) ".").

(** A world where a symbolic link [/data] leads to [/sandbox], and
    [/loop] is a symbolic-link loop. *)
Definition linked_world : World :=
  mkWorld (λ p, if decide (p = "/loop") then None
                else if decide (p = "/data") then Some "/sandbox"
                else Posix.resolve [] p)
          Posix.no_faults sandbox_store [].

(** A directory with a hidden file, two visible files in reverse name order
    and a subdirectory. *)
Definition home_world : World :=
  Posix.world {[ "/" := Dir; "/sandbox" := Dir;
                 "/sandbox/.env" := File "KEY=1";
                 "/sandbox/b.txt" := File "b";
                 "/sandbox/A.txt" := File "a";
                 "/sandbox/sub" := Dir ]}.

(** What holds of every entry of a listing. *)
Definition listed (include_hidden : bool) (d : InfoDict) : Prop :=
  (include_hidden = false → Str.startswith (info_name d) "." = false)
  ∧ info_is_file d && info_is_dir d = false.

(** A call that reads no content. *)
Definition metadata_only (call : syscall * string) : Prop :=
  call.1 ≠ SysReadText ∧ call.1 ≠ SysReadBytes.

(** A match by name alone. *)
Definition by_filename (m : SearchMatch) : Prop :=
  sm_match_type m = filename ∧ sm_matching_lines m = None.

(** [track I m R]: from a world that satisfies [I], [m] ends in a world that
    satisfies [I], and what it returns satisfies [R]. *)
Definition track {A} (I : World → Prop) (m : M A) (R : A → Prop) : Prop :=
  ∀ w, I w → wp m (λ o w', I w' ∧ match o with
                                  | Returned a => R a
                                  | Raised _ => True
                                  end) w.

(** The worlds a search from [w0] goes through when every storage call it
    has made is on a path that passes the path check. *)
Definition checked_calls (self : SecureFileManager) (w0 w : World) : Prop :=
  canon w = canon w0
  ∧ grows (λ call, allowed_in self w0 call.2 = true) w0 w.

(** A content match is backed by a file: an entry that passes the path
    check and the extension check, holds valid UTF-8 of at most
    [MAX_FILE_SIZE] bytes whose text contains the pattern, and whose first
    ten matching lines are the ones reported. *)
Definition backed (cfg : Config) (self : SecureFileManager) (pattern : string)
    (w0 : World) (m : SearchMatch) : Prop :=
  match sm_match_type m with
  | filename => sm_matching_lines m = None
  | content =>
      ∃ item d,
        (_get_file_info item w0).1 = Returned (sm_info m)
        ∧ node_at w0 item = Some (File d)
        ∧ allowed_in self w0 item = true
        ∧ _is_extension_allowed cfg item = true
        ∧ Str.len d <= MAX_FILE_SIZE cfg
        ∧ Str.utf8_valid d = true
        ∧ is_Some (sm_matching_lines m)
        ∧ (Str.is_ascii pattern = true → Str.is_ascii d = true →
           Str.contains (Str.lower pattern)
             (Str.lower (Str.universal_newlines d)) = true
           ∧ sm_matching_lines m
             = Some (take 10 (find_matching_lines pattern (Str.universal_newlines d))))
  end.

(** The test of one numbered line in [find_matching_lines]. *)
Definition numbered_match (pattern : string) : Z * string → option (Z * string) :=
  λ '(i, line), if Str.contains (Str.lower pattern) (Str.lower line)
               then Some (i, Str.strip line) else None.

(** [settles I m R E]: from a world that satisfies [I], [m] ends in a world
    that satisfies [I]; what it returns satisfies [R], what it raises
    satisfies [E]. *)
Definition settles {A} (I : World → Prop) (m : M A) (R : A → Prop) (E : exn → Prop)
  : Prop :=
  ∀ w, I w → wp m (λ o w', I w' ∧ match o with
                                  | Returned a => R a
                                  | Raised e => E e
                                  end) w.

(** The exception predicate of code that raises nothing. *)
Definition never : exn → Prop := λ _, False.

(** A platform that raises no fault. *)
Definition faultless (w : World) : Prop := ∀ c p, faults w c p = None.

(** A sandbox with a file that is not text. *)
Definition binary_world : World :=
  Posix.world {[ "/" := Dir; "/sandbox" := Dir;
                 "/sandbox/blob.txt" := File (String (ascii_of_N 255) "blob") ]}.

(** * Properties *)

Example suffix_txt : PurePath.suffix "/sandbox/notes.txt" = ".txt".
Proof. reflexivity. Qed.

Example suffix_hidden : PurePath.suffix "/home/u/.bashrc" = "".
Proof. reflexivity. Qed.

Example suffix_two : PurePath.suffix "/t/a.tar.GZ" = ".GZ".
Proof. reflexivity. Qed.

Example parent_file : PurePath.parent "/sandbox/new.txt" = "/sandbox".
Proof. reflexivity. Qed.

Example strip_line : Str.strip "  hello world  " = "hello world".
Proof. reflexivity. Qed.

Lemma wp_ret {A} (a : A) Q w : Q (Returned a) w → wp (mret a) Q w.
Proof. done. Qed.

Lemma wp_raise {A} e (Q : outcome A → World → Prop) w :
  Q (Raised e) w → wp (raise e) Q w.
Proof. done. Qed.

Lemma wp_bind {A B} (m : M A) (f : A → M B) Q w :
  wp m (after f Q) w → wp (m ≫= f) Q w.
Proof.
  unfold wp, after, mbind, M_bind.
  destruct (m w) as [[a|e] w']; done.
Qed.

Lemma wp_mono {A} (m : M A) (Q Q' : outcome A → World → Prop) w :
  (∀ o w', Q o w' → Q' o w') → wp m Q w → wp m Q' w.
Proof. unfold wp. auto. Qed.

Lemma wp_try_catch {A} (body : M A) (classes : exn → bool) (handler : exn → M A)
    (Q : outcome A → World → Prop) w :
  wp body (λ o w', match o with
                   | Returned a => Q (Returned a) w'
                   | Raised e => if classes e then wp (handler e) Q w'
                                 else Q (Raised e) w'
                   end) w →
  wp (try_catch body classes handler) Q w.
Proof.
  unfold wp, try_catch.
  destruct (body w) as [[a|e] w']; simpl; [done|].
  destruct (classes e); done.
Qed.

Lemma wp_if {A} (b : bool) (m1 m2 : M A) Q w :
  (b = true → wp m1 Q w) → (b = false → wp m2 Q w) →
  wp (if b then m1 else m2) Q w.
Proof. destruct b; auto. Qed.

(** The loop rule: [I] holds of the accumulator and the world at every
    turn; [R] receives an exception that leaves the loop. *)
Lemma wp_for_each {A S} (xs : list A) (body : A → S → M S)
    (I : S → World → Prop) (R : exn → World → Prop) acc w :
  I acc w →
  (∀ x acc w, x ∈ xs → I acc w →
     wp (body x acc) (λ o w', match o with
                              | Returned acc' => I acc' w'
                              | Raised e => R e w'
                              end) w) →
  wp (for_each xs body acc) (λ o w', match o with
                                     | Returned acc' => I acc' w'
                                     | Raised e => R e w'
                                     end) w.
Proof.
  revert acc w. induction xs as [|x xs IH]; intros acc w HI Hbody; simpl.
  - by apply wp_ret.
  - apply wp_bind.
    eapply wp_mono; [|apply Hbody; [by left|done]].
    intros [acc'|e] w' H; simpl; [|done].
    apply IH; [done|].
    intros y acc0 w0 Hy. apply Hbody. by right.
Qed.

(** An operation never lets an exception out when its handler returns. *)
Lemma try_except_returns {A} (body : M A) (handler : exn → M A) w :
  (∀ e w', ∃ a w'', handler e w' = (Returned a, w'')) →
  ∃ a w', try_except body handler w = (Returned a, w').
Proof.
  intros Hh. unfold try_except, try_catch.
  destruct (body w) as [[a|e] w']; simpl; eauto.
Qed.

Lemma is_path_allowed_eval self p w :
  _is_path_allowed self p w = (Returned (allowed_in self w p), w).
Proof.
  unfold _is_path_allowed, try_except, try_catch, allowed_in, mbind, M_bind,
    Path.resolve.
  destruct (canon w p); reflexivity.
Qed.

(** * Path containment *)

Lemma prefix_append (d x : string) : String.prefix d (d ++ x) = true.
Proof.
  induction d as [|a d IH]; simpl.
  - by destruct x.
  - by destruct (Ascii.ascii_dec a a).
Qed.

(** Whatever is appended to an allowed directory, separator or not, the
    resolved path passes the check. *)
Lemma extension_of_root_allowed self w p d x :
  d ∈ allowed_dirs self → canon w p = Some (d ++ x) →
  _is_path_allowed self p w = (Returned true, w).
Proof.
  intros Hd Hc. rewrite is_path_allowed_eval. unfold allowed_in. rewrite Hc.
  do 2 f_equal. apply bool_decide_eq_true.
  exists d. split; [done|]. apply prefix_append.
Qed.

(** A path that fails the check has no allowed directory as a prefix of its
    resolved form, or does not resolve. *)
Lemma allowed_in_false self w p :
  allowed_in self w p = false ↔
  ∀ c, canon w p = Some c → ∀ d, d ∈ allowed_dirs self → Str.startswith c d = false.
Proof.
  unfold allowed_in. destruct (canon w p) as [c|]; [|by split].
  rewrite bool_decide_eq_false. split.
  - intros Hn c' [= <-] d Hd.
    destruct (Str.startswith c d) eqn:E; [|done].
    exfalso. apply Hn. by exists d.
  - intros H [d [Hd E]]. rewrite (H c eq_refl d Hd) in E. done.
Qed.

(** C1 (the code at the failing input).  With the single allowed root
    [/a/b], the path [/a/bc] is not inside the root, yet [_is_path_allowed]
    answers [True] for it, exactly as it does for the genuine descendant
    [/a/b/c]: the check is [str.startswith] on the resolved strings, with no
    separator appended to the root. *)
Theorem sibling_prefix_passes_path_check (st : gmap string node) :
  let self := mkManager {[ "/a/b" ]} in
  let w := Posix.world st in
  within "/a/b" "/a/bc" = false
  ∧ within "/a/b" "/a/b/c" = true
  ∧ _is_path_allowed self "/a/bc" w = (Returned true, w)
  ∧ _is_path_allowed self "/a/b/c" w = (Returned true, w).
Proof.
  intros self w. split; [by vm_compute|]. split; [by vm_compute|]. split.
  - apply (extension_of_root_allowed self w "/a/bc" "/a/b" "c"); [set_solver|done].
  - apply (extension_of_root_allowed self w "/a/b/c" "/a/b" "/c"); [set_solver|done].
Qed.

(** * Extension policy *)

(** C6.  The deny list is consulted first: a path is accepted exactly when
    its lower-cased suffix is not on the deny list and the allow list is
    empty or contains it.  In particular a suffix on both lists is
    rejected. *)
Theorem extension_deny_list_first (cfg : Config) (file_path : string) :
  let extension := Str.lower (PurePath.suffix file_path) in
  (_is_extension_allowed cfg file_path = true ↔
     (extension ∉ DANGEROUS_EXTENSIONS cfg)
     ∧ (ALLOWED_EXTENSIONS cfg = ∅ ∨ extension ∈ ALLOWED_EXTENSIONS cfg)).
Proof.
  intros extension. unfold _is_extension_allowed. fold extension.
  repeat case_bool_decide; simpl; split; try done; tauto.
Qed.

Lemma extension_deny_list_first_witness :
  Str.lower (PurePath.suffix "/sandbox/run.SH") ∈ ALLOWED_EXTENSIONS overlapping_config
  ∧ Str.lower (PurePath.suffix "/sandbox/run.SH") ∈ DANGEROUS_EXTENSIONS overlapping_config
  ∧ _is_extension_allowed overlapping_config "/sandbox/run.SH" = false
  ∧ _is_extension_allowed overlapping_config "/sandbox/a.txt" = true.
Proof.
  split; [|split; [|split]].
  - vm_compute. set_solver.
  - vm_compute. set_solver.
  - destruct (_is_extension_allowed overlapping_config "/sandbox/run.SH") eqn:E; [|done].
    apply (extension_deny_list_first overlapping_config "/sandbox/run.SH") in E.
    destruct E as [E _]. exfalso. apply E. vm_compute. set_solver.
  - apply (extension_deny_list_first overlapping_config "/sandbox/a.txt").
    split; [|right]; vm_compute; set_solver.
Defined.

(** * Totality at the operation boundary *)

(** A path whose resolution raises (a symbolic-link loop) is refused like any
    other path outside the allowed directories. *)
Lemma unresolvable_is_not_allowed self w p :
  canon w p = None → _is_path_allowed self p w = (Returned false, w).
Proof.
  intros H. rewrite is_path_allowed_eval. unfold allowed_in. by rewrite H.
Qed.

(** C8.  Each of the six operations returns a result, a success payload or
    an error payload, from every world and on every input: no exception
    raised by the platform, path resolution included, leaves an
    operation. *)
Theorem operations_return_results (cfg : Config) (self : SecureFileManager)
    (md5 sha1 sha256 : string → string) (w : World) :
  (∀ file_path max_size, ∃ r w', read_file cfg self file_path max_size w = (Returned r, w'))
  ∧ (∀ file_path text create_dirs,
       ∃ r w', write_file cfg self file_path text create_dirs w = (Returned r, w'))
  ∧ (∀ dir_path include_hidden,
       ∃ r w', list_directory self dir_path include_hidden w = (Returned r, w'))
  ∧ (∀ search_dir pattern include_content,
       ∃ r w', search_files cfg self search_dir pattern include_content w = (Returned r, w'))
  ∧ (∀ file_path, ∃ r w', get_file_info self file_path w = (Returned r, w'))
  ∧ (∀ file_path,
       ∃ r w', get_file_hash cfg self md5 sha1 sha256 file_path w = (Returned r, w')).
Proof.
  repeat split; intros;
    apply try_except_returns; intros e w'; eexists _, _; reflexivity.
Qed.

(** * Running the operations step by step *)

Lemma run_bind {A B} (m : M A) (f : A → M B) w a w1 r :
  m w = (Returned a, w1) → f a w1 = r → (m ≫= f) w = r.
Proof. intros Hm <-. unfold mbind, M_bind. by rewrite Hm. Qed.

Lemma run_bind_raised {A B} (m : M A) (f : A → M B) w e w1 :
  m w = (Raised e, w1) → (m ≫= f) w = (Raised e, w1).
Proof. intros Hm. unfold mbind, M_bind. by rewrite Hm. Qed.

Lemma run_try_returned {A} (body : M A) classes handler w a w1 :
  body w = (Returned a, w1) → try_catch body classes handler w = (Returned a, w1).
Proof. intros Hb. unfold try_catch. by rewrite Hb. Qed.

Lemma run_try_caught {A} (body : M A) (classes : exn → bool) handler w e w1 r :
  body w = (Raised e, w1) → classes e = true → handler e w1 = r →
  try_catch body classes handler w = r.
Proof. intros Hb Hc <-. unfold try_catch. by rewrite Hb, Hc. Qed.

Section Primitives.

Context (w : World) (p : string).

Lemma exists_eval :
  faults w SysExists p = None →
  Path.exists_ p w
  = (Returned (bool_decide (is_Some (node_at w p))), record_call SysExists p w).
Proof. intros H. unfold Path.exists_, Path.sys. by rewrite H. Qed.

Lemma is_file_eval :
  faults w SysIsFile p = None →
  Path.is_file p w
  = (Returned (match node_at w p with Some (File _) => true | _ => false end),
     record_call SysIsFile p w).
Proof. intros H. unfold Path.is_file, Path.sys. by rewrite H. Qed.

Lemma is_dir_eval :
  faults w SysIsDir p = None →
  Path.is_dir p w
  = (Returned (match node_at w p with Some Dir => true | _ => false end),
     record_call SysIsDir p w).
Proof. intros H. unfold Path.is_dir, Path.sys. by rewrite H. Qed.

Lemma stat_eval d :
  faults w SysStat p = None → node_at w p = Some (File d) →
  Path.stat p w = (Returned (Str.len d), record_call SysStat p w).
Proof.
  intros H Hn. unfold Path.stat, Path.sys. rewrite H.
  change (node_at (record_call SysStat p w) p) with (node_at w p). by rewrite Hn.
Qed.

Lemma read_bytes_eval d :
  faults w SysReadBytes p = None → node_at w p = Some (File d) →
  Path.read_bytes p w = (Returned d, record_call SysReadBytes p w).
Proof.
  intros H Hn. unfold Path.read_bytes, Path.sys. rewrite H.
  change (node_at (record_call SysReadBytes p w) p) with (node_at w p). by rewrite Hn.
Qed.

Lemma read_text_decoded d :
  faults w SysReadText p = None → node_at w p = Some (File d) →
  Str.utf8_valid d = true →
  Path.read_text p w = (Returned (Str.universal_newlines d), record_call SysReadText p w).
Proof.
  intros H Hn Hu. unfold Path.read_text, Path.sys. rewrite H.
  change (node_at (record_call SysReadText p w) p) with (node_at w p).
  by rewrite Hn, Hu.
Qed.

Lemma read_text_undecodable d :
  faults w SysReadText p = None → node_at w p = Some (File d) →
  Str.utf8_valid d = false →
  Path.read_text p w = (Raised UnicodeDecodeError, record_call SysReadText p w).
Proof.
  intros H Hn Hu. unfold Path.read_text, Path.sys. rewrite H.
  change (node_at (record_call SysReadText p w) p) with (node_at w p).
  by rewrite Hn, Hu.
Qed.

End Primitives.

Lemma get_file_info_returns (p : string) (w : World) :
  ∃ i w', _get_file_info p w = (Returned i, w').
Proof. apply try_except_returns. intros e w'. by eexists _, _. Qed.

Lemma node_at_record_call c q w p : node_at (record_call c q w) p = node_at w p.
Proof. reflexivity. Qed.

Lemma gtb_leb (x y : Z) : (x >? y) = negb (x <=? y).
Proof. by rewrite Z.gtb_ltb, Z.ltb_antisym. Qed.

(** Side conditions of a storage call: no fault on it, and the node it
    reaches. *)
Ltac calm :=
  cbn [faults record_call set_store]; rewrite ?node_at_record_call;
  first [ eassumption
        | match goal with H : quiet _ _ |- _ => apply H end ].

(** The storage calls of one step of an operation, solved from the
    hypotheses about the world. *)
Ltac prim :=
  first
    [ apply is_path_allowed_eval
    | apply exists_eval; solve [calm]
    | apply is_file_eval; solve [calm]
    | apply is_dir_eval; solve [calm]
    | eapply stat_eval; solve [calm]
    | eapply read_bytes_eval; solve [calm]
    | eapply read_text_decoded; solve [calm] ].

Ltac step :=
  eapply run_bind; [prim|]; rewrite ?node_at_record_call; cbn [negb orb andb].

Ltac known :=
  match goal with
  | H : ?x = _ |- context [?x] => rewrite H
  end.

(** One move of a symbolic run: a storage call, a pure step, or a test
    decided by a hypothesis. *)
Ltac advance :=
  first [ reflexivity
        | step
        | eapply run_bind; [reflexivity|]
        | progress (repeat known;
                    cbn [negb orb andb bool_decide decide_rel is_Some_dec option_eq_None_dec])
        | rewrite gtb_leb ].

(** ** Refusal on the path check *)

Section Denial.

Context (cfg : Config) (self : SecureFileManager).
Context (md5 sha1 sha256 : string → string).
Context (w : World) (p : string).
Hypothesis Hdenied : allowed_in self w p = false.

Local Ltac refuse :=
  eapply run_try_returned; step; rewrite Hdenied; reflexivity.

Lemma read_file_denied max_size :
  read_file cfg self p max_size w = (Returned (Err AccessDenied), w).
Proof. refuse. Qed.

Lemma write_file_denied text create_dirs :
  write_file cfg self p text create_dirs w = (Returned (Err AccessDenied), w).
Proof. refuse. Qed.

Lemma list_directory_denied include_hidden :
  list_directory self p include_hidden w = (Returned (Err AccessDenied), w).
Proof. refuse. Qed.

Lemma search_files_denied pattern include_content :
  search_files cfg self p pattern include_content w = (Returned (Err AccessDenied), w).
Proof. refuse. Qed.

Lemma get_file_info_denied :
  get_file_info self p w = (Returned (Err AccessDenied), w).
Proof. refuse. Qed.

Lemma get_file_hash_denied :
  get_file_hash cfg self md5 sha1 sha256 p w = (Returned (Err AccessDenied), w).
Proof. refuse. Qed.

End Denial.

Lemma error_of_intro {A} (x : outcome (result A) * World) e w' :
  x = (Returned (Err e), w') → error_of x = Some e.
Proof. by intros ->. Qed.

Section OrderProofs.

Context (cfg : Config) (self : SecureFileManager).
Context (md5 sha1 sha256 : string → string).

Local Ltac refused :=
  intros [= <-]; eapply error_of_intro, run_try_returned; repeat advance.

Lemma refusal_follows_listed_order w req pc :
  quiet_for w req → first_violated cfg self w req = Some pc →
  refusal cfg self md5 sha1 sha256 req w = Some (reported cfg w req pc).
Proof.
  intros [Hq Hqp].
  destruct req as [p ms|p text cd|p ih|p pat ic|p|p];
    unfold first_violated, refusal, reported, holds, size_at; simpl in *.
  - destruct (allowed_in self w p) eqn:Ha; simpl; [|refused].
    destruct (node_at w p) as [[|d]|] eqn:Hn; simpl; [refused| |refused].
    destruct (_is_extension_allowed cfg p) eqn:He; simpl; [|refused].
    destruct (Str.len d <=? or_else ms (MAX_FILE_SIZE cfg)) eqn:Hs; simpl; [done|refused].
  - destruct (allowed_in self w p) eqn:Ha; simpl; [|refused].
    destruct (_is_extension_allowed cfg p) eqn:He; simpl; [|refused].
    destruct (Str.len text <=? MAX_FILE_SIZE cfg) eqn:Hs; simpl; [|refused].
    destruct cd; simpl; [done|].
    destruct (node_at w (PurePath.parent p)) as [n|] eqn:Hn; simpl; [done|refused].
  - destruct (allowed_in self w p) eqn:Ha; simpl; [|refused].
    destruct (node_at w p) as [[|d]|] eqn:Hn; simpl; [done|refused|refused].
  - destruct (allowed_in self w p) eqn:Ha; simpl; [|refused].
    destruct (node_at w p) as [[|d]|] eqn:Hn; simpl; [done|refused|refused].
  - destruct (allowed_in self w p) eqn:Ha; simpl; [|refused].
    destruct (node_at w p) as [[|d]|] eqn:Hn; simpl; [done|done|refused].
  - destruct (allowed_in self w p) eqn:Ha; simpl; [|refused].
    destruct (node_at w p) as [[|d]|] eqn:Hn; simpl; [refused| |refused].
    destruct (Str.len d <=? MAX_FILE_SIZE cfg) eqn:Hs; simpl; [done|refused].
Qed.

(** A request on a path that fails the path check is answered
    [AccessDenied] and the world is left as it was: no storage call is
    journalled, nothing is stored. *)
Lemma denied_request_untouched w req :
  allowed_in self w (target req) = false →
  refusal cfg self md5 sha1 sha256 req w = Some AccessDenied
  ∧ world_after cfg self md5 sha1 sha256 req w = w.
Proof.
  intros Ha. destruct req; simpl in *.
  - by rewrite read_file_denied.
  - by rewrite write_file_denied.
  - by rewrite list_directory_denied.
  - by rewrite search_files_denied.
  - by rewrite get_file_info_denied.
  - by rewrite get_file_hash_denied.
Qed.

End OrderProofs.

(** C5 (counterexample).  The checks do not come class by class.
    [read_file] tests the existence and the type of the target before the
    extension policy: for [/sandbox/tool.EXE], which the extension policy
    rejects, it answers that the file is not found where the file is missing
    and that the file type is not allowed where it exists, so the refusal of
    a path the policy does not allow tells whether the path exists.
    [write_file] tests the size of the content before the existence of the
    parent directory: a text over the limit for a directory that does not
    exist is refused for its size.  Neither list is in the order policy,
    existence and type, size. *)
Theorem extension_refusal_reveals_existence :
  let p := "/sandbox/tool.EXE" in
  let q := "/sandbox/new/a.txt" in
  allowed_in sandbox_manager sandbox_world p = true
  ∧ _is_extension_allowed module_config p = false
  ∧ node_at sandbox_world p = None
  ∧ node_at tool_world p = Some (File "MZ")
  ∧ (read_file module_config sandbox_manager p None sandbox_world).1
    = Returned (Err (FileNotFound p))
  ∧ (read_file module_config sandbox_manager p None tool_world).1
    = Returned (Err (FileTypeNotAllowed ".EXE"))
  ∧ node_at sandbox_world (PurePath.parent q) = None
  ∧ Str.len "hello" > MAX_FILE_SIZE (with_limit 3)
  ∧ (write_file (with_limit 3) sandbox_manager q "hello" false sandbox_world).1
    = Returned (Err (ContentTooLarge 3))
  ∧ listed_by_class (ReadFile p None) = false
  ∧ listed_by_class (WriteFile q "hello" false) = false.
Proof. vm_compute. by repeat split. Qed.

(** C5 (amended).  Every operation is refused with the error of the first
    violated precondition, in the order the table lists them for that
    operation.  In every list the path check comes first, so a path that
    fails the path check is answered [AccessDenied] from any world, whether
    or not the path exists there, and the world is not touched.  The lists of
    list, search, info and hash go class by class (policy, existence and
    type, size); those of read and write do not. *)
Theorem first_violated_precondition_is_reported (cfg : Config)
    (self : SecureFileManager) (md5 sha1 sha256 : string → string) (req : request) :
  head (listed_order req) = Some PathAllowed
  ∧ listed_by_class req = match req with
                          | ReadFile _ _ | WriteFile _ _ _ => false
                          | _ => true
                          end
  ∧ (∀ w pc, quiet_for w req → first_violated cfg self w req = Some pc →
       refusal cfg self md5 sha1 sha256 req w = Some (reported cfg w req pc))
  ∧ (∀ w1 w2,
       allowed_in self w1 (target req) = false →
       allowed_in self w2 (target req) = false →
       refusal cfg self md5 sha1 sha256 req w1 = Some AccessDenied
       ∧ refusal cfg self md5 sha1 sha256 req w2 = refusal cfg self md5 sha1 sha256 req w1
       ∧ world_after cfg self md5 sha1 sha256 req w1 = w1).
Proof.
  split; [by destruct req|]. split; [by destruct req|]. split.
  - intros w pc. apply refusal_follows_listed_order.
  - intros w1 w2 H1 H2.
    destruct (denied_request_untouched cfg self md5 sha1 sha256 w1 req H1) as [E1 U1].
    destruct (denied_request_untouched cfg self md5 sha1 sha256 w2 req H2) as [E2 _].
    by rewrite E1, E2.
Qed.

Lemma quiet_posix st p : quiet (Posix.world st) p.
Proof. by intros c. Qed.

Lemma first_violated_precondition_is_reported_witness :
  let req := ReadFile "/sandbox/missing.exe" None in
  let denied := ReadFile "/etc/passwd" None in
  let bare := Posix.world ∅ in
  quiet_for sandbox_world req
  ∧ first_violated module_config sandbox_manager sandbox_world req = Some TargetExists
  ∧ refusal module_config sandbox_manager no_digest no_digest no_digest req sandbox_world
    = Some (FileNotFound "/sandbox/missing.exe")
  ∧ node_at sandbox_world "/etc/passwd" = Some (File "root:x:0:0")
  ∧ node_at bare "/etc/passwd" = None
  ∧ refusal module_config sandbox_manager no_digest no_digest no_digest denied sandbox_world
    = Some AccessDenied
  ∧ refusal module_config sandbox_manager no_digest no_digest no_digest denied bare
    = refusal module_config sandbox_manager no_digest no_digest no_digest denied
        sandbox_world.
Proof.
  intros req denied bare.
  assert (Hq : quiet_for sandbox_world req) by (split; apply quiet_posix).
  assert (Hf : first_violated module_config sandbox_manager sandbox_world req
               = Some TargetExists) by (by vm_compute).
  assert (H1 : allowed_in sandbox_manager sandbox_world (target denied) = false)
    by (by vm_compute).
  assert (H2 : allowed_in sandbox_manager bare (target denied) = false)
    by (by vm_compute).
  destruct (first_violated_precondition_is_reported module_config sandbox_manager
              no_digest no_digest no_digest req) as (_ & _ & Horder & _).
  destruct (first_violated_precondition_is_reported module_config sandbox_manager
              no_digest no_digest no_digest denied) as (_ & _ & _ & Hsame).
  destruct (Hsame sandbox_world bare H1 H2) as (Hd & He & _).
  split; [done|]. split; [done|]. split; [exact (Horder sandbox_world _ Hq Hf)|].
  split; [by vm_compute|]. split; [by vm_compute|]. by split.
Defined.

(** * Size limits *)

Lemma get_file_info_of_file (w : World) (p d : string) :
  quiet w p → node_at w p = Some (File d) →
  _get_file_info p w
  = (Returned (Info {| fi_name := PurePath.name p;
                       fi_path := PurePath.str p;
                       fi_size := Str.len d;
                       fi_is_file := true;
                       fi_is_dir := false;
                       fi_extension := Str.lower (PurePath.suffix p) |}),
     record_call SysIsDir p (record_call SysIsFile p (record_call SysStat p w))).
Proof.
  intros Hq Hn. eapply run_try_returned. repeat advance.
Qed.

Section Limits.

Context (cfg : Config) (self : SecureFileManager).
Context (md5 sha1 sha256 : string → string).
Context (w : World) (p d : string).
Hypothesis Hquiet : quiet w p.
Hypothesis Hallowed : allowed_in self w p = true.
Hypothesis Hfile : node_at w p = Some (File d).

Lemma read_file_over_limit max_size :
  _is_extension_allowed cfg p = true →
  Str.len d > or_else max_size (MAX_FILE_SIZE cfg) →
  ∃ w', read_file cfg self p max_size w
        = (Returned (Err (FileTooLarge (Str.len d) (or_else max_size (MAX_FILE_SIZE cfg)))),
           w').
Proof.
  intros He Hs. apply Z.gt_lt, Z.leb_gt in Hs.
  eexists. eapply run_try_returned. repeat advance.
Qed.

Lemma read_file_within_limit max_size :
  _is_extension_allowed cfg p = true →
  Str.len d <= or_else max_size (MAX_FILE_SIZE cfg) →
  ∃ payload w', read_file cfg self p max_size w = (Returned (Ok payload), w')
                ∧ rd_content payload = rendered d
                ∧ rd_size payload = Str.len d.
Proof.
  intros He Hs. apply Z.leb_le in Hs. unfold rendered.
  destruct (Str.utf8_valid d) eqn:Hu.
  - eexists _, _. split.
    { eapply run_try_returned. repeat advance.
      eapply run_bind.
      { eapply run_try_returned, run_bind; [eapply read_text_decoded; solve [calm]|].
        reflexivity. }
      eapply run_bind; [apply get_file_info_of_file; solve [calm]|]. reflexivity. }
    split; reflexivity.
  - eexists _, _. split.
    { eapply run_try_returned. repeat advance.
      eapply run_bind.
      { eapply run_try_caught.
        - eapply run_bind_raised, read_text_undecodable; solve [calm].
        - done.
        - eapply run_bind; [eapply read_bytes_eval; solve [calm]|]. reflexivity. }
      eapply run_bind; [apply get_file_info_of_file; solve [calm]|]. reflexivity. }
    split; reflexivity.
Qed.

Lemma get_file_hash_over_limit :
  Str.len d > MAX_FILE_SIZE cfg →
  ∃ w', get_file_hash cfg self md5 sha1 sha256 p w = (Returned (Err TooLargeForHashing), w').
Proof.
  intros Hs. apply Z.gt_lt, Z.leb_gt in Hs.
  eexists. eapply run_try_returned. repeat advance.
Qed.

Lemma get_file_hash_within_limit :
  Str.len d <= MAX_FILE_SIZE cfg →
  ∃ payload w', get_file_hash cfg self md5 sha1 sha256 p w = (Returned (Ok payload), w')
                ∧ hs_size payload = Str.len d
                ∧ hs_md5 payload = md5 d ∧ hs_sha1 payload = sha1 d
                ∧ hs_sha256 payload = sha256 d.
Proof.
  intros Hs. apply Z.leb_le in Hs.
  eexists _, _. split.
  { eapply run_try_returned. repeat advance. }
  repeat split; reflexivity.
Qed.

End Limits.

(** C7.  For a file that passes the earlier preconditions (and a platform
    that raises no fault on it), [read_file] and [get_file_hash] succeed when
    the file is exactly as large as the limit that applies, and are refused
    as too large when it is one byte larger.  The limit of [read_file] is the
    per-call one when given, the limit of [get_file_hash] is
    [MAX_FILE_SIZE]. *)
Theorem size_limit_is_inclusive (cfg : Config) (self : SecureFileManager)
    (md5 sha1 sha256 : string → string) (w : World) (p d : string) (max_size : option Z) :
  quiet w p → allowed_in self w p = true → node_at w p = Some (File d) →
  let limit := or_else max_size (MAX_FILE_SIZE cfg) in
  (_is_extension_allowed cfg p = true → Str.len d = limit →
     ∃ payload w', read_file cfg self p max_size w = (Returned (Ok payload), w')
                   ∧ rd_size payload = limit)
  ∧ (_is_extension_allowed cfg p = true → Str.len d = limit + 1 →
     ∃ w', read_file cfg self p max_size w
           = (Returned (Err (FileTooLarge (limit + 1) limit)), w'))
  ∧ (Str.len d = MAX_FILE_SIZE cfg →
     ∃ payload w', get_file_hash cfg self md5 sha1 sha256 p w = (Returned (Ok payload), w')
                   ∧ hs_size payload = MAX_FILE_SIZE cfg)
  ∧ (Str.len d = MAX_FILE_SIZE cfg + 1 →
     ∃ w', get_file_hash cfg self md5 sha1 sha256 p w
           = (Returned (Err TooLargeForHashing), w')).
Proof.
  intros Hq Ha Hn limit. repeat split.
  - intros He Hs.
    destruct (read_file_within_limit cfg self w p d Hq Ha Hn max_size He)
      as (payload & w' & Hr & _ & Hsz); [fold limit; lia|].
    exists payload, w'. split; [done|]. by rewrite Hsz.
  - intros He Hs.
    destruct (read_file_over_limit cfg self w p d Hq Ha Hn max_size He)
      as (w' & Hr); [fold limit; lia|].
    exists w'. rewrite Hr. fold limit. by rewrite Hs.
  - intros Hs.
    destruct (get_file_hash_within_limit cfg self md5 sha1 sha256 w p d Hq Ha Hn)
      as (payload & w' & Hr & Hsz & _); [lia|].
    exists payload, w'. split; [done|]. by rewrite Hsz.
  - intros Hs.
    apply (get_file_hash_over_limit cfg self md5 sha1 sha256 w p d Hq Ha Hn). lia.
Qed.

Lemma size_limit_is_inclusive_witness :
  let p := "/sandbox/notes.txt" in
  (∃ payload w', read_file module_config sandbox_manager p (Some 11) sandbox_world
                 = (Returned (Ok payload), w') ∧ rd_size payload = 11)
  ∧ (∃ w', read_file module_config sandbox_manager p (Some 10) sandbox_world
           = (Returned (Err (FileTooLarge 11 10)), w'))
  ∧ (∃ payload w', get_file_hash (with_limit 11) sandbox_manager
                     no_digest no_digest no_digest p sandbox_world
                   = (Returned (Ok payload), w') ∧ hs_size payload = 11)
  ∧ (∃ w', get_file_hash (with_limit 10) sandbox_manager
             no_digest no_digest no_digest p sandbox_world
           = (Returned (Err TooLargeForHashing), w')).
Proof.
  intros p.
  assert (Hq : quiet sandbox_world p) by apply quiet_posix.
  assert (Ha : allowed_in sandbox_manager sandbox_world p = true) by (by vm_compute).
  assert (Hn : node_at sandbox_world p = Some (File "hello world")) by (by vm_compute).
  assert (He : _is_extension_allowed module_config p = true) by (by vm_compute).
  split; [|split; [|split]].
  - exact (proj1 (size_limit_is_inclusive module_config sandbox_manager
                    no_digest no_digest no_digest sandbox_world p "hello world"
                    (Some 11) Hq Ha Hn) He eq_refl).
  - exact (proj1 (proj2 (size_limit_is_inclusive module_config sandbox_manager
                    no_digest no_digest no_digest sandbox_world p "hello world"
                    (Some 10) Hq Ha Hn)) He eq_refl).
  - exact (proj1 (proj2 (proj2 (size_limit_is_inclusive (with_limit 11) sandbox_manager
                    no_digest no_digest no_digest sandbox_world p "hello world"
                    None Hq Ha Hn))) eq_refl).
  - exact (proj2 (proj2 (proj2 (size_limit_is_inclusive (with_limit 10) sandbox_manager
                    no_digest no_digest no_digest sandbox_world p "hello world"
                    None Hq Ha Hn))) eq_refl).
Defined.

Lemma len_repeated a n : Str.len (repeated a n) = Z.of_nat n.
Proof. unfold Str.len. f_equal. induction n; simpl; congruence. Qed.

Lemma archive_lookup d :
  node_at (Posix.world (archive d)) "/sandbox/big.txt" = Some (File d).
Proof. by vm_compute. Qed.

Lemma archive_allowed d :
  allowed_in sandbox_manager (Posix.world (archive d)) "/sandbox/big.txt" = true.
Proof. by vm_compute. Qed.

Lemma archive_read_with_doubled_limit d :
  Str.len d = MAX_FILE_SIZE module_config + 1 →
  size_at (Posix.world (archive d)) "/sandbox/big.txt" = MAX_FILE_SIZE module_config + 1
  ∧ 2 * MAX_FILE_SIZE module_config > MAX_FILE_SIZE module_config
  ∧ ∃ payload w',
      read_file module_config sandbox_manager "/sandbox/big.txt"
        (Some (2 * MAX_FILE_SIZE module_config)) (Posix.world (archive d))
      = (Returned (Ok payload), w')
      ∧ rd_size payload = MAX_FILE_SIZE module_config + 1.
Proof.
  intros Hlen. split; [|split; [done|]].
  - unfold size_at. by rewrite archive_lookup.
  - destruct (read_file_within_limit module_config sandbox_manager
                (Posix.world (archive d)) "/sandbox/big.txt" d
                (quiet_posix _ _) (archive_allowed d) (archive_lookup d)
                (Some (2 * MAX_FILE_SIZE module_config)))
      as (payload & w' & Hr & _ & Hsz).
    + by vm_compute.
    + rewrite Hlen. by vm_compute.
    + exists payload, w'. split; [done|]. by rewrite Hsz.
Qed.

Lemma len_oversized : Str.len oversized = MAX_FILE_SIZE module_config + 1.
Proof. unfold oversized. rewrite len_repeated. by apply Z2Nat.id. Qed.

(** C4 (the code at the failing input).  With the source's [MAX_FILE_SIZE]
    of 10 MiB, which the module documents as the limit on file size, a file
    of 10485761 bytes and the per-call limit 20971520, [read_file] returns
    the file instead of refusing it as too large: the per-call limit replaces
    the configured one, it is not capped by it. *)
Theorem override_above_ceiling_reads_oversized_file :
  size_at (Posix.world (archive oversized)) "/sandbox/big.txt"
  = MAX_FILE_SIZE module_config + 1
  ∧ 2 * MAX_FILE_SIZE module_config > MAX_FILE_SIZE module_config
  ∧ ∃ payload w',
      read_file module_config sandbox_manager "/sandbox/big.txt"
        (Some (2 * MAX_FILE_SIZE module_config)) (Posix.world (archive oversized))
      = (Returned (Ok payload), w')
      ∧ rd_size payload = MAX_FILE_SIZE module_config + 1.
Proof. exact (archive_read_with_doubled_limit oversized len_oversized). Qed.

(** C2 (the code at the failing input).  The resolved path
    [/a/bc/secret.txt] lies outside the only allowed root [/a/b], yet
    [read_file] returns its content after five storage calls, and
    [write_file] stores a new file next to it.  The refusal itself is free of
    effects ([denied_request_untouched]); what fails is the path check, which
    accepts the sibling directory. *)
Theorem sibling_directory_is_served :
  let outside := "/a/bc/secret.txt" in
  canon sibling_world outside = Some outside
  ∧ (∀ root, root ∈ allowed_dirs sibling_manager → within root outside = false)
  ∧ (read_file module_config sibling_manager outside None sibling_world).1
    = Returned (Ok {| rd_content := Text "top secret";
                      rd_size := 10;
                      rd_file_info :=
                        Info {| fi_name := "secret.txt";
                                fi_path := outside;
                                fi_size := 10;
                                fi_is_file := true;
                                fi_is_dir := false;
                                fi_extension := ".txt" |} |})
  ∧ (SysReadText, outside)
    ∈ journal (read_file module_config sibling_manager outside None sibling_world).2
  ∧ store (write_file module_config sibling_manager "/a/bc/new.txt" "x" false
             sibling_world).2 !! "/a/bc/new.txt" = Some (File "x").
Proof.
  intros outside. split; [by vm_compute|]. split; [|split; [by vm_compute|split]].
  - intros root Hroot. simpl in Hroot. apply elem_of_singleton in Hroot as ->.
    by vm_compute.
  - vm_compute. set_solver.
  - by vm_compute.
Qed.

(** * Search *)

(** C3 (the code at the failing input).  In the scenario of the
    specification the pattern [hello] occurs in the content of
    [/sandbox/notes.txt] and not in its name; [search_files] with
    [include_content] set returns no match at all, because the content of an
    entry is looked at only after its name has matched. *)
Theorem content_only_match_is_not_reported :
  node_at sandbox_world "/sandbox/notes.txt" = Some (File "hello world")
  ∧ Str.contains (Str.lower "hello") (Str.lower "hello world") = true
  ∧ Str.contains (Str.lower "hello") (Str.lower (PurePath.name "/sandbox/notes.txt")) = false
  ∧ (search_files module_config sandbox_manager "/sandbox" "hello" true sandbox_world).1
    = Returned (Ok {| sr_search_directory := "/sandbox";
                      sr_pattern := "hello";
                      sr_matches := [];
                      sr_total_matches := 0 |}).
Proof. repeat split; by vm_compute. Qed.

Lemma yields_ret {A} (a : A) (R : A → Prop) : R a → yields (mret a) R.
Proof. intros H w. by apply wp_ret. Qed.

Lemma yields_bind_with {A B} (m : M A) (f : A → M B) (R1 : A → Prop) (R : B → Prop) :
  yields m R1 → (∀ a, R1 a → yields (f a) R) → yields (m ≫= f) R.
Proof.
  intros Hm Hf w. apply wp_bind. eapply wp_mono; [|apply Hm].
  intros [a|e] w' H; simpl; [|done]. by apply Hf.
Qed.

Lemma yields_anything {A} (m : M A) : yields m (λ _, True).
Proof. intros w. unfold wp. by destruct (m w).1. Qed.

Lemma yields_bind {A B} (m : M A) (f : A → M B) (R : B → Prop) :
  (∀ a, yields (f a) R) → yields (m ≫= f) R.
Proof. intros Hf. eapply yields_bind_with; [apply yields_anything|]. auto. Qed.

Lemma yields_try_catch {A} (body : M A) (classes : exn → bool) (handler : exn → M A)
    (R : A → Prop) :
  yields body R → (∀ e, yields (handler e) R) → yields (try_catch body classes handler) R.
Proof.
  intros Hb Hh w. apply wp_try_catch. eapply wp_mono; [|apply Hb].
  intros [a|e] w' H; simpl; [done|].
  destruct (classes e); [apply Hh|done].
Qed.

Lemma yields_for_each {A S} (xs : list A) (body : A → S → M S) (R : S → Prop) acc :
  R acc → (∀ x acc, R acc → yields (body x acc) R) → yields (for_each xs body acc) R.
Proof.
  intros Hacc Hbody w.
  apply (wp_for_each xs body (λ a _, R a) (λ _ _, True)); [done|].
  intros x a w0 _ Ha. by apply Hbody.
Qed.

Lemma yields_run {A} (m : M A) (R : A → Prop) w a w' :
  yields m R → m w = (Returned a, w') → R a.
Proof. intros Hm Hrun. specialize (Hm w). unfold wp in Hm. by rewrite Hrun in Hm. Qed.

Lemma get_file_info_name p :
  yields (_get_file_info p) (λ d, ∀ i, d = Info i → fi_name i = PurePath.name p).
Proof.
  apply yields_try_catch.
  - do 3 (apply yields_bind; intros ?). apply yields_ret. by intros i [= <-].
  - intros e. by apply yields_ret.
Qed.

Section SearchResults.

Context (cfg : Config) (self : SecureFileManager).

Lemma search_content_sound pattern item match_info :
  sound pattern match_info →
  yields (search_content cfg pattern item match_info) (sound pattern).
Proof.
  intros Hm. apply yields_try_catch; [|intros e; by apply yields_ret].
  apply yields_bind. intros st_size.
  destruct (st_size <=? MAX_FILE_SIZE cfg); [|by apply yields_ret].
  apply yields_bind. intros text.
  destruct (Str.contains (Str.lower pattern) (Str.lower text)); [|by apply yields_ret].
  apply yields_ret. split.
  - intros lines [= <-]. rewrite length_take. lia.
  - apply Hm.
Qed.

Lemma search_item_sound pattern include_content item matches :
  Forall (sound pattern) matches →
  yields (search_item cfg self pattern include_content item matches)
         (Forall (sound pattern)).
Proof.
  intros Hms. unfold search_item.
  apply yields_bind. intros allowed.
  destruct (negb allowed); [by apply yields_ret|].
  destruct (Str.contains (Str.lower pattern) (Str.lower (PurePath.name item))) eqn:Hname;
    [|by apply yields_ret].
  eapply yields_bind_with; [apply get_file_info_name|]. intros info Hinfo.
  assert (Hbase : sound pattern {| sm_info := info; sm_match_type := filename;
                                   sm_matching_lines := None |}).
  { split; [by intros lines|]. intros i Hi. simpl in Hi.
    by rewrite (Hinfo i Hi). }
  eapply (yields_bind_with _ _ (sound pattern)).
  - destruct include_content; [|by apply yields_ret].
    apply yields_bind. intros is_file.
    destruct (is_file && _is_extension_allowed cfg item); [|by apply yields_ret].
    by apply search_content_sound.
  - intros m Hm. apply yields_ret. apply Forall_app. split; [done|].
    by apply Forall_singleton.
Qed.

Lemma search_files_sound search_dir pattern include_content :
  yields (search_files cfg self search_dir pattern include_content)
         (λ r, ∀ payload, r = Ok payload →
                 Forall (sound pattern) (sr_matches payload)).
Proof.
  apply yields_try_catch; [|intros e; by apply yields_ret].
  apply yields_bind. intros allowed.
  destruct (negb allowed); [by apply yields_ret|].
  apply yields_bind. intros ex. apply yields_bind. intros is_dir.
  destruct (negb ex || negb is_dir); [by apply yields_ret|].
  apply yields_bind. intros entries.
  eapply (yields_bind_with _ _ (Forall (sound pattern))).
  - apply yields_for_each; [done|]. intros item acc Hacc.
    by apply search_item_sound.
  - intros matches Hm. apply yields_ret. by intros payload [= <-].
Qed.

End SearchResults.

(** C9.  Whatever [search_files] returns, the matching-lines list of each
    match holds at most 10 entries. *)
Theorem matching_lines_are_capped (cfg : Config) (self : SecureFileManager)
    (search_dir pattern : string) (include_content : bool) (w w' : World)
    (payload : SearchPayload) :
  search_files cfg self search_dir pattern include_content w = (Returned (Ok payload), w') →
  ∀ m lines, m ∈ sr_matches payload → sm_matching_lines m = Some lines →
             (List.length lines ≤ 10)%nat.
Proof.
  intros Hrun m lines Hm Hlines.
  pose proof (yields_run _ _ _ _ _ (search_files_sound cfg self search_dir pattern
                                      include_content) Hrun payload eq_refl) as Hall.
  rewrite Forall_forall in Hall. by apply (Hall m Hm).
Qed.

Lemma matching_lines_are_capped_witness :
  List.length (find_matching_lines "hello" fifty_lines) = 50%nat
  ∧ ∃ payload w' m lines,
      search_files module_config sandbox_manager "/sandbox" "hello" true fifty_world
      = (Returned (Ok payload), w')
      ∧ m ∈ sr_matches payload
      ∧ sm_match_type m = content
      ∧ sm_matching_lines m = Some lines
      ∧ (List.length lines ≤ 10)%nat.
Proof.
  split; [by vm_compute|].
  eexists _, _, _, _.
  split; [vm_compute; reflexivity|].
  split; [left|].
  split; [reflexivity|].
  split; [reflexivity|].
  eapply (matching_lines_are_capped module_config sandbox_manager
            "/sandbox" "hello" true fifty_world).
  - vm_compute. reflexivity.
  - left.
  - reflexivity.
Defined.

Lemma grows_refl P w : grows P w w.
Proof. by exists []. Qed.

Lemma grows_call P w0 w w' c p :
  grows P w0 w → P (c, p) → journal w' = (c, p) :: journal w → grows P w0 w'.
Proof.
  intros (calls & Hj & Hall) HP Hj'. exists ((c, p) :: calls). split.
  - by rewrite Hj', Hj.
  - by constructor.
Qed.

Section Safe.

Context (P : syscall * string → Prop).

Lemma safe_ret {A} (a : A) : safe P (mret a).
Proof. intros w0 w Hg. by apply wp_ret. Qed.

Lemma safe_bind {A B} (m : M A) (f : A → M B) :
  safe P m → (∀ a, safe P (f a)) → safe P (m ≫= f).
Proof.
  intros Hm Hf w0 w Hg. apply wp_bind. eapply wp_mono; [|by apply Hm].
  intros [a|e] w' H; simpl; [by apply Hf|done].
Qed.

Lemma safe_try_catch {A} (body : M A) (classes : exn → bool) (handler : exn → M A) :
  safe P body → (∀ e, safe P (handler e)) → safe P (try_catch body classes handler).
Proof.
  intros Hb Hh w0 w Hg. apply wp_try_catch. eapply wp_mono; [|by apply Hb].
  intros [a|e] w' H; simpl; [done|].
  destruct (classes e); [by apply Hh|done].
Qed.

Lemma safe_for_each {A S} (xs : list A) (body : A → S → M S) acc :
  (∀ x acc, safe P (body x acc)) → safe P (for_each xs body acc).
Proof.
  intros Hbody w0 w Hg.
  eapply wp_mono;
    [|apply (wp_for_each xs body (λ _ w', grows P w0 w') (λ _ w', grows P w0 w'));
      [done|]].
  - by intros [a|e] w' H.
  - intros x a w1 _ H1. eapply wp_mono; [|by apply Hbody]. by intros [a'|e] w' H.
Qed.

Lemma safe_call {A} (m : M A) c p :
  (∀ w, journal (m w).2 = (c, p) :: journal w) → P (c, p) → safe P m.
Proof. intros Hm HP w0 w Hg. unfold wp. by eapply grows_call. Qed.

Lemma safe_is_path_allowed self p : safe P (_is_path_allowed self p).
Proof. intros w0 w Hg. unfold wp. by rewrite is_path_allowed_eval. Qed.

End Safe.

Section Traces.

Context (p : string) (w : World).

Local Ltac trace :=
  unfold Path.sys; destruct (faults w _ p); simpl; repeat case_match; reflexivity.

Lemma exists_traced : journal (Path.exists_ p w).2 = (SysExists, p) :: journal w.
Proof. unfold Path.exists_. trace. Qed.

Lemma is_file_traced : journal (Path.is_file p w).2 = (SysIsFile, p) :: journal w.
Proof. unfold Path.is_file. trace. Qed.

Lemma is_dir_traced : journal (Path.is_dir p w).2 = (SysIsDir, p) :: journal w.
Proof. unfold Path.is_dir. trace. Qed.

Lemma stat_traced : journal (Path.stat p w).2 = (SysStat, p) :: journal w.
Proof. unfold Path.stat. trace. Qed.

Lemma read_text_traced : journal (Path.read_text p w).2 = (SysReadText, p) :: journal w.
Proof. unfold Path.read_text. trace. Qed.

Lemma rglob_traced : journal (Path.rglob p w).2 = (SysRglob, p) :: journal w.
Proof. unfold Path.rglob. trace. Qed.

End Traces.

Section SearchReads.

Context (cfg : Config) (self : SecureFileManager).

Local Ltac metadata :=
  first [ eapply safe_call; [apply exists_traced|by split]
        | eapply safe_call; [apply is_file_traced|by split]
        | eapply safe_call; [apply is_dir_traced|by split]
        | eapply safe_call; [apply stat_traced|by split]
        | eapply safe_call; [apply rglob_traced|by split]
        | apply safe_is_path_allowed ].

Lemma get_file_info_safe p : safe (reads_allowed cfg) (_get_file_info p).
Proof.
  apply safe_try_catch; [|intros e; apply safe_ret].
  repeat (apply safe_bind; [metadata|intros ?]). apply safe_ret.
Qed.

Lemma search_content_safe pattern item match_info :
  _is_extension_allowed cfg item = true →
  safe (reads_allowed cfg) (search_content cfg pattern item match_info).
Proof.
  intros He. apply safe_try_catch; [|intros e; apply safe_ret].
  apply safe_bind; [metadata|intros st_size].
  destruct (st_size <=? MAX_FILE_SIZE cfg); [|apply safe_ret].
  apply safe_bind; [eapply safe_call; [apply read_text_traced|by split]|intros text].
  destruct (Str.contains _ _); apply safe_ret.
Qed.

Lemma search_item_safe pattern include_content item matches :
  safe (reads_allowed cfg) (search_item cfg self pattern include_content item matches).
Proof.
  unfold search_item. apply safe_bind; [metadata|intros allowed].
  destruct (negb allowed); [apply safe_ret|].
  destruct (Str.contains _ _); [|apply safe_ret].
  apply safe_bind; [apply get_file_info_safe|intros info].
  apply safe_bind; [|intros m; apply safe_ret].
  destruct include_content; [|apply safe_ret].
  apply safe_bind; [metadata|intros is_file].
  destruct is_file; simpl; [|apply safe_ret].
  destruct (_is_extension_allowed cfg item) eqn:He; [|apply safe_ret].
  by apply search_content_safe.
Qed.

Lemma search_files_safe search_dir pattern include_content :
  safe (reads_allowed cfg) (search_files cfg self search_dir pattern include_content).
Proof.
  apply safe_try_catch; [|intros e; apply safe_ret].
  apply safe_bind; [metadata|intros allowed].
  destruct (negb allowed); [apply safe_ret|].
  apply safe_bind; [metadata|intros ex].
  apply safe_bind; [destruct ex; [metadata|apply safe_ret]|intros is_dir].
  destruct (negb ex || negb is_dir); [apply safe_ret|].
  apply safe_bind; [metadata|intros entries].
  apply safe_bind; [|intros matches; apply safe_ret].
  apply safe_for_each. intros item acc. apply search_item_safe.
Qed.

(** A search never reads the content of an entry the extension policy
    rejects. *)
Lemma search_skips_rejected_extensions search_dir pattern include_content w p :
  _is_extension_allowed cfg p = false →
  ∃ calls,
    journal (search_files cfg self search_dir pattern include_content w).2
    = (calls ++ journal w)%list
    ∧ ((SysReadText, p) ∉ calls) ∧ ((SysReadBytes, p) ∉ calls).
Proof.
  intros He.
  destruct (search_files_safe search_dir pattern include_content w w (grows_refl _ w))
    as (calls & Hj & Hall).
  exists calls. split; [done|]. rewrite Forall_forall in Hall.
  split; intros Hin; destruct (Hall _ Hin) as [Hb Ht]; simpl in *.
  - specialize (Ht eq_refl). congruence.
  - done.
Qed.

End SearchReads.

(** * Paths without an extension *)

Lemma no_suffix_rejected (cfg : Config) (p : string) :
  ALLOWED_EXTENSIONS cfg ≠ ∅ → "" ∉ ALLOWED_EXTENSIONS cfg →
  PurePath.suffix p = "" → _is_extension_allowed cfg p = false.
Proof.
  intros Hne Hnot Hs. unfold _is_extension_allowed. rewrite Hs. simpl.
  repeat case_bool_decide; simpl; done.
Qed.

Lemma module_allow_list : ALLOWED_EXTENSIONS module_config ≠ ∅
                          ∧ "" ∉ ALLOWED_EXTENSIONS module_config.
Proof. split; apply (bool_decide_unpack _); by vm_compute. Qed.

(** C10.  Under the source's extension lists a path whose last component
    has no suffix fails the extension check, the allow list being non-empty
    and without the empty suffix.  So [read_file] on such a file in an
    allowed directory and [write_file] to such a path answer that the file
    type is not allowed, and [search_files] never reads the content of such
    an entry. *)
Theorem extensionless_paths_are_refused (self : SecureFileManager) (w : World)
    (p : string) :
  PurePath.suffix p = "" →
  _is_extension_allowed module_config p = false
  ∧ (∀ max_size d,
       quiet w p → allowed_in self w p = true → node_at w p = Some (File d) →
       ∃ w', read_file module_config self p max_size w
             = (Returned (Err (FileTypeNotAllowed "")), w'))
  ∧ (∀ text create_dirs,
       allowed_in self w p = true →
       write_file module_config self p text create_dirs w
       = (Returned (Err (FileTypeNotAllowed "")), w))
  ∧ (∀ search_dir pattern include_content,
       ∃ calls,
         journal (search_files module_config self search_dir pattern include_content w).2
         = (calls ++ journal w)%list
         ∧ ((SysReadText, p) ∉ calls) ∧ ((SysReadBytes, p) ∉ calls)).
Proof.
  intros Hs.
  assert (He : _is_extension_allowed module_config p = false).
  { destruct module_allow_list. by apply no_suffix_rejected. }
  split; [done|]. split; [|split].
  - intros max_size d Hq Ha Hn. eexists. rewrite <- Hs.
    eapply run_try_returned. repeat advance.
  - intros text create_dirs Ha. rewrite <- Hs.
    eapply run_try_returned. repeat advance.
  - intros search_dir pattern include_content.
    by apply search_skips_rejected_extensions.
Qed.

Lemma extensionless_paths_are_refused_witness :
  let p := "/sandbox/README" in
  PurePath.suffix p = ""
  ∧ (∃ w', read_file module_config sandbox_manager p None readme_world
           = (Returned (Err (FileTypeNotAllowed "")), w'))
  ∧ write_file module_config sandbox_manager p "text" false readme_world
    = (Returned (Err (FileTypeNotAllowed "")), readme_world)
  ∧ (∃ calls,
       journal (search_files module_config sandbox_manager "/sandbox" "readme" true
                  readme_world).2
       = (calls ++ journal readme_world)%list
       ∧ ((SysReadText, p) ∉ calls) ∧ ((SysReadBytes, p) ∉ calls)).
Proof.
  intros p.
  assert (Hs : PurePath.suffix p = "") by reflexivity.
  assert (Ha : allowed_in sandbox_manager readme_world p = true) by (by vm_compute).
  destruct (extensionless_paths_are_refused sandbox_manager readme_world p Hs)
    as (_ & Hread & Hwrite & Hsearch).
  split; [done|]. split; [|split].
  - apply (Hread None "read me"); [apply quiet_posix|done|by vm_compute].
  - by apply Hwrite.
  - apply Hsearch.
Defined.

(** * Operations that only read *)

Lemma same_disk_refl w : same_disk w w.
Proof. done. Qed.

Lemma same_disk_trans w1 w2 w3 : same_disk w1 w2 → same_disk w2 w3 → same_disk w1 w3.
Proof. intros (?&?&?) (?&?&?). repeat split; congruence. Qed.

Lemma same_disk_node_at w w' p : same_disk w w' → node_at w' p = node_at w p.
Proof. intros (Hc & _ & Hs). unfold node_at. by rewrite Hc, Hs. Qed.

Lemma same_disk_allowed_in self w w' p :
  same_disk w w' → allowed_in self w' p = allowed_in self w p.
Proof. intros (Hc & _). unfold allowed_in. by rewrite Hc. Qed.

Lemma same_disk_quiet w w' p : same_disk w w' → quiet w p → quiet w' p.
Proof. intros (_ & Hf & _) Hq c. by rewrite Hf. Qed.

Lemma readonly_ret {A} (a : A) : readonly (mret a).
Proof. by intros w. Qed.

Lemma readonly_bind {A B} (m : M A) (f : A → M B) :
  readonly m → (∀ a, readonly (f a)) → readonly (m ≫= f).
Proof.
  intros Hm Hf w. specialize (Hm w). unfold mbind, M_bind.
  destruct (m w) as [[a|e] w1]; simpl in *; [|done].
  eapply same_disk_trans; [done|apply Hf].
Qed.

Lemma readonly_try_catch {A} (body : M A) (classes : exn → bool) (handler : exn → M A) :
  readonly body → (∀ e, readonly (handler e)) → readonly (try_catch body classes handler).
Proof.
  intros Hb Hh w. specialize (Hb w). unfold try_catch.
  destruct (body w) as [[a|e] w1]; simpl in *; [done|].
  destruct (classes e); [|done].
  eapply same_disk_trans; [done|apply Hh].
Qed.

Lemma readonly_for_each {A S} (xs : list A) (body : A → S → M S) acc :
  (∀ x acc, readonly (body x acc)) → readonly (for_each xs body acc).
Proof.
  intros Hbody. revert acc. induction xs as [|x xs IH]; intros acc; simpl.
  - apply readonly_ret.
  - apply readonly_bind; [apply Hbody|]. intros acc'. apply IH.
Qed.

Lemma readonly_sys {A} c p (k : World → outcome A * World) :
  (∀ w, same_disk w (k w).2) → readonly (Path.sys c p k).
Proof.
  intros Hk w. unfold Path.sys. destruct (faults w c p); [done|].
  apply (same_disk_trans _ (record_call c p w)); [done|apply Hk].
Qed.

Lemma readonly_is_path_allowed self p : readonly (_is_path_allowed self p).
Proof. intros w. by rewrite is_path_allowed_eval. Qed.

Section ReadonlyCalls.

Context (p : string).

Local Ltac look := apply readonly_sys; intros w; repeat case_match; done.

Lemma readonly_exists : readonly (Path.exists_ p).
Proof. look. Qed.

Lemma readonly_is_file : readonly (Path.is_file p).
Proof. look. Qed.

Lemma readonly_is_dir : readonly (Path.is_dir p).
Proof. look. Qed.

Lemma readonly_stat : readonly (Path.stat p).
Proof. look. Qed.

Lemma readonly_read_text : readonly (Path.read_text p).
Proof. look. Qed.

Lemma readonly_read_bytes : readonly (Path.read_bytes p).
Proof. look. Qed.

Lemma readonly_iterdir : readonly (Path.iterdir p).
Proof. look. Qed.

Lemma readonly_rglob : readonly (Path.rglob p).
Proof. look. Qed.

End ReadonlyCalls.

(** Closes a [readonly] goal about a computation built from binds, tests,
    handlers and calls that only read. *)
Ltac inspect :=
  repeat first
    [ apply readonly_ret
    | apply readonly_is_path_allowed
    | apply readonly_exists | apply readonly_is_file | apply readonly_is_dir
    | apply readonly_stat | apply readonly_read_text | apply readonly_read_bytes
    | apply readonly_iterdir | apply readonly_rglob
    | apply readonly_try_catch; [|intros ?]
    | apply readonly_bind; [|intros ?]
    | apply readonly_for_each; intros ? ?
    | match goal with |- readonly (if ?b then _ else _) => destruct b end
    | match goal with |- readonly (match ?x with _ => _ end) => destruct x end ].

Lemma readonly_get_file_info p : readonly (_get_file_info p).
Proof. unfold _get_file_info, try_except. inspect. Qed.

Section ReadonlyOperations.

Context (cfg : Config) (self : SecureFileManager).
Context (md5 sha1 sha256 : string → string).

Lemma readonly_read_file p max_size : readonly (read_file cfg self p max_size).
Proof. unfold read_file, try_except. inspect; apply readonly_get_file_info. Qed.

Lemma readonly_list_directory p include_hidden :
  readonly (list_directory self p include_hidden).
Proof. unfold list_directory, try_except. inspect; apply readonly_get_file_info. Qed.

Lemma readonly_search_files p pattern include_content :
  readonly (search_files cfg self p pattern include_content).
Proof.
  unfold search_files, try_except, search_item, search_content.
  inspect; apply readonly_get_file_info.
Qed.

Lemma readonly_get_file_info_op p : readonly (get_file_info self p).
Proof. unfold get_file_info, try_except. inspect; apply readonly_get_file_info. Qed.

Lemma readonly_get_file_hash p : readonly (get_file_hash cfg self md5 sha1 sha256 p).
Proof. unfold get_file_hash, try_except. inspect. Qed.

End ReadonlyOperations.

(** X1.  Reading, listing, searching, inspecting and hashing never change
    the tree: whatever the input and whatever the platform raises, the
    stored files and directories are the same afterwards. *)
Theorem reading_operations_leave_the_tree (cfg : Config) (self : SecureFileManager)
    (md5 sha1 sha256 : string → string) (w : World) :
  (∀ p max_size, store (read_file cfg self p max_size w).2 = store w)
  ∧ (∀ p include_hidden, store (list_directory self p include_hidden w).2 = store w)
  ∧ (∀ p pattern include_content,
       store (search_files cfg self p pattern include_content w).2 = store w)
  ∧ (∀ p, store (get_file_info self p w).2 = store w)
  ∧ (∀ p, store (get_file_hash cfg self md5 sha1 sha256 p w).2 = store w).
Proof.
  repeat split; intros.
  - apply readonly_read_file.
  - apply readonly_list_directory.
  - apply readonly_search_files.
  - apply readonly_get_file_info_op.
  - apply readonly_get_file_hash.
Qed.

(** * Writing *)

Lemma wp_readonly {A} (m : M A) (Q : outcome A → World → Prop) w :
  readonly m → (∀ o w', same_disk w w' → Q o w') → wp m Q w.
Proof. intros Hm HQ. apply HQ, Hm. Qed.

Lemma transfer_prefix fault_at sent content :
  String.prefix (Path.transfer fault_at sent content).1 content = true.
Proof.
  revert sent. induction content as [|a rest IH]; intros sent; simpl.
  - by destruct (fault_at sent).
  - destruct (fault_at sent); [done|]. specialize (IH (S sent)).
    destruct (Path.transfer fault_at (S sent) rest) as [d r]. simpl in *.
    by destruct (Ascii.ascii_dec a a).
Qed.

Lemma transfer_complete fault_at sent content :
  (Path.transfer fault_at sent content).2 = None →
  (Path.transfer fault_at sent content).1 = content.
Proof.
  revert sent. induction content as [|a rest IH]; intros sent; simpl.
  - by destruct (fault_at sent).
  - destruct (fault_at sent); [done|]. specialize (IH (S sent)).
    destruct (Path.transfer fault_at (S sent) rest) as [d r]. simpl in *.
    intros Hr. by rewrite IH.
Qed.

Lemma transfer_quiet fault_at sent content :
  (∀ k, fault_at k = None) → Path.transfer fault_at sent content = (content, None).
Proof.
  intros Hq. revert sent. induction content as [|a rest IH]; intros sent; simpl.
  - by rewrite Hq.
  - by rewrite Hq, IH.
Qed.

Lemma wp_write_text p text (Q : outcome unit → World → Prop) w :
  (∀ e w', same_disk w w' → Q (Raised e) w') →
  (∀ c d e w', canon w p = Some c → store w !! PurePath.parent c = Some Dir →
               store w !! c ≠ Some Dir → String.prefix d text = true →
               canon w' = canon w → faults w' = faults w →
               store w' = <[c := File d]> (store w) → Q (Raised e) w') →
  (∀ c w', canon w p = Some c → canon w' = canon w → faults w' = faults w →
           store w' = <[c := File text]> (store w) → Q (Returned ()) w') →
  wp (Path.write_text p text) Q w.
Proof.
  intros Hraise Htorn Hret. unfold wp, Path.write_text, Path.sys.
  destruct (faults w SysWriteText p); [by apply Hraise|].
  cbn [canon store faults record_call].
  destruct (canon w p) as [c|] eqn:Hc; [|by apply Hraise].
  destruct (store w !! PurePath.parent c) as [[|d]|] eqn:Hp; try by apply Hraise.
  assert (Hsent : store w !! c ≠ Some Dir →
    Q (let '(d, r) := Path.transfer (λ k, faults w (SysWriteData k) p) 0 text in
       match r with
       | Some e => (Raised e,
                    set_store (<[c := File d]> (store w)) (record_call SysWriteText p w))
       | None => (Returned (),
                  set_store (<[c := File d]> (store w)) (record_call SysWriteText p w))
       end).1
      (let '(d, r) := Path.transfer (λ k, faults w (SysWriteData k) p) 0 text in
       match r with
       | Some e => (Raised e,
                    set_store (<[c := File d]> (store w)) (record_call SysWriteText p w))
       | None => (Returned (),
                  set_store (<[c := File d]> (store w)) (record_call SysWriteText p w))
       end).2).
  { intros Hd.
    pose proof (transfer_prefix (λ k, faults w (SysWriteData k) p) 0 text) as Hpre.
    pose proof (transfer_complete (λ k, faults w (SysWriteData k) p) 0 text) as Hall.
    destruct (Path.transfer (λ k, faults w (SysWriteData k) p) 0 text) as [d [e|]];
      simpl in *.
    - by apply (Htorn c d e).
    - rewrite Hall by done. by apply (Hret c). }
  destruct (store w !! c) as [[|d]|]; [by apply Hraise|by apply Hsent..].
Qed.

Lemma wp_get_file_info p (Q : outcome InfoDict → World → Prop) w :
  (∀ info w', same_disk w w' → Q (Returned info) w') → wp (_get_file_info p) Q w.
Proof.
  intros HQ. unfold wp.
  destruct (get_file_info_returns p w) as (info & w' & Hrun).
  pose proof (readonly_get_file_info p w) as Hsame.
  rewrite Hrun in *. by apply HQ.
Qed.



Lemma wp_exists_quiet p (Q : outcome bool → World → Prop) w :
  faults w SysExists p = None →
  (∀ w', same_disk w w' → Q (Returned (bool_decide (is_Some (node_at w p)))) w') →
  wp (Path.exists_ p) Q w.
Proof.
  intros Hf HQ. unfold wp. rewrite exists_eval by done. by apply HQ.
Qed.

Lemma wp_write_text_stored p text c (Q : outcome unit → World → Prop) w :
  quiet w p → canon w p = Some c →
  store w !! PurePath.parent c = Some Dir → store w !! c ≠ Some Dir →
  (∀ w', canon w' = canon w → faults w' = faults w →
         store w' = <[c := File text]> (store w) → Q (Returned ()) w') →
  wp (Path.write_text p text) Q w.
Proof.
  intros Hq Hc Hp Hd HQ. unfold wp, Path.write_text, Path.sys. rewrite Hq.
  cbn [canon store faults record_call]. rewrite Hc, Hp.
  rewrite transfer_quiet by (intros k; apply Hq).
  destruct (store w !! c) as [[|d]|]; [done|by apply HQ..].
Qed.

(** The universal-newline reading of a text without carriage return is the
    text itself. *)
Lemma universal_newlines_without_cr s :
  Str.CR ∉ list_ascii_of_string s → Str.universal_newlines s = s.
Proof.
  induction s as [|a s IH]; [done|]. simpl. intros Hcr.
  apply not_elem_of_cons in Hcr as [Ha Hs].
  destruct (Ascii.eqb a Str.CR) eqn:E.
  - apply Ascii.eqb_eq in E. by subst.
  - by rewrite IH.
Qed.

Section WriteThenRead.

Context (cfg : Config) (self : SecureFileManager).
Context (w : World) (p text c : string) (create_dirs : bool).
Hypothesis Hquiet : quiet w p.
Hypothesis Hquiet_parent : quiet w (PurePath.parent p).
Hypothesis Hallowed : allowed_in self w p = true.
Hypothesis Hextension : _is_extension_allowed cfg p = true.
Hypothesis Hsize : Str.len text <= MAX_FILE_SIZE cfg.
Hypothesis Hcanon : canon w p = Some c.
Hypothesis Hparent : store w !! PurePath.parent c = Some Dir.
Hypothesis Hparent_exists : is_Some (node_at w (PurePath.parent p)).
Hypothesis Htarget : store w !! c ≠ Some Dir.

Lemma write_file_stores :
  ∃ payload w', write_file cfg self p text create_dirs w = (Returned (Ok payload), w')
                ∧ wr_size payload = Str.len text
                ∧ canon w' = canon w ∧ faults w' = faults w
                ∧ store w' = <[c := File text]> (store w).
Proof.
  assert (Hgoal :
    wp (write_file cfg self p text create_dirs)
       (λ o w', ∃ payload, o = Returned (Ok payload)
                           ∧ wr_size payload = Str.len text
                           ∧ canon w' = canon w ∧ faults w' = faults w
                           ∧ store w' = <[c := File text]> (store w)) w).
  { apply wp_try_catch, wp_bind. unfold wp at 1. rewrite is_path_allowed_eval, Hallowed.
    simpl. rewrite Hextension. simpl.
    rewrite gtb_leb, (proj2 (Z.leb_le _ _) Hsize). simpl.
    assert (Hcheck : ∀ Q : outcome bool → World → Prop, ∀ w0,
               same_disk w w0 →
               (∀ w', same_disk w w' → Q (Returned true) w') →
               wp (Path.exists_ (PurePath.parent p)) Q w0).
    { intros Q w0 Hw0 HQ. apply wp_exists_quiet.
      - by apply (same_disk_quiet w w0).
      - intros w' Hw'. rewrite (same_disk_node_at w w0) by done.
        rewrite bool_decide_eq_true_2 by done.
        apply HQ. by eapply same_disk_trans. }
    assert (Hrest : ∀ w0, same_disk w w0 →
      wp (parent_exists ← Path.exists_ (PurePath.parent p);
          if negb parent_exists
          then mret (Err (ParentMissing (PurePath.parent p)))
          else Path.write_text p text;;
               file_info ← _get_file_info p;
               mret (Ok {| wr_size := Str.len text; wr_file_info := file_info |}))
         (λ o w', match o with
                  | Returned a =>
                      ∃ payload, Returned a = Returned (Ok payload)
                                 ∧ wr_size payload = Str.len text
                                 ∧ canon w' = canon w ∧ faults w' = faults w
                                 ∧ store w' = <[c := File text]> (store w)
                  | Raised e => False
                  end) w0).
    { intros w0 Hw0. apply wp_bind, Hcheck; [done|].
      intros w1 (Hc1 & Hf1 & Hs1). simpl.
      apply wp_bind, (wp_write_text_stored p text c).
      - intros k. rewrite Hf1. apply Hquiet.
      - by rewrite Hc1.
      - by rewrite Hs1.
      - by rewrite Hs1.
      - intros w2 Hc2 Hf2 Hs2. simpl. apply wp_bind, wp_get_file_info.
        intros info w3 (Hc3 & Hf3 & Hs3). simpl. apply wp_ret.
        eexists. split; [done|]. split; [done|].
        repeat split; congruence. }
    eapply wp_mono; cycle 1.
    - destruct create_dirs.
      + apply wp_bind, wp_bind, Hcheck; [done|]. intros w1 Hw1. simpl.
        apply wp_ret. simpl. by apply Hrest.
      + apply wp_bind, wp_ret. simpl. by apply Hrest.
    - intros [a|e] w' H; simpl in *; [exact H|done]. }
  unfold wp in Hgoal. destruct Hgoal as (payload & Hr & Hrest).
  exists payload, (write_file cfg self p text create_dirs w).2.
  split; [|done]. rewrite <- Hr. by destruct (write_file _ _ _ _ _ _).
Qed.

End WriteThenRead.

(** X3.  What [write_file] accepts, [read_file] gives back: after a write
    that meets its preconditions (path, extension and size checks pass, the
    parent directory exists, the target is not a directory, no platform
    fault), a read of the same path with the default limit succeeds, reports
    the size written, and returns the text as text, with carriage returns
    read as line feeds, or the binary marker when the bytes are not UTF-8.
    A UTF-8 text without carriage return comes back unchanged. *)
Theorem write_then_read_round_trip (cfg : Config) (self : SecureFileManager)
    (w : World) (p text c : string) (create_dirs : bool) :
  quiet w p → quiet w (PurePath.parent p) →
  allowed_in self w p = true → _is_extension_allowed cfg p = true →
  Str.len text <= MAX_FILE_SIZE cfg →
  canon w p = Some c → store w !! PurePath.parent c = Some Dir →
  is_Some (node_at w (PurePath.parent p)) → store w !! c ≠ Some Dir →
  ∃ written w1 got w2,
    write_file cfg self p text create_dirs w = (Returned (Ok written), w1)
    ∧ read_file cfg self p None w1 = (Returned (Ok got), w2)
    ∧ wr_size written = Str.len text
    ∧ rd_size got = Str.len text
    ∧ rd_content got = rendered text
    ∧ (Str.utf8_valid text = true → Str.CR ∉ list_ascii_of_string text →
       rd_content got = Text text).
Proof.
  intros Hq Hqp Ha He Hs Hc Hp Hpe Ht.
  destruct (write_file_stores cfg self w p text c create_dirs Hq Hqp Ha He Hs Hc Hp Hpe Ht)
    as (written & w1 & Hw & Hsz & Hc1 & Hf1 & Hs1).
  assert (Hn : node_at w1 p = Some (File text)).
  { unfold node_at. rewrite Hc1, Hc. simpl. rewrite Hs1. apply lookup_insert_eq. }
  destruct (read_file_within_limit cfg self w1 p text) with (max_size := @None Z)
    as (got & w2 & Hr & Hcontent & Hsize).
  - intros call. rewrite Hf1. apply Hq.
  - unfold allowed_in in *. by rewrite Hc1.
  - done.
  - done.
  - done.
  - exists written, w1, got, w2. repeat split; try done; try congruence.
    intros Hu Hcr. rewrite Hcontent. unfold rendered. rewrite Hu.
    by rewrite universal_newlines_without_cr.
Qed.

Lemma write_then_read_round_trip_witness :
  ∃ written w1 got w2,
    write_file module_config sandbox_manager "/sandbox/new.txt" "data" false sandbox_world
    = (Returned (Ok written), w1)
    ∧ read_file module_config sandbox_manager "/sandbox/new.txt" None w1
      = (Returned (Ok got), w2)
    ∧ rd_size got = 4
    ∧ rd_content got = Text "data".
Proof.
  destruct (write_then_read_round_trip module_config sandbox_manager sandbox_world
              "/sandbox/new.txt" "data" "/sandbox/new.txt" false)
    as (written & w1 & got & w2 & Hw & Hr & _ & Hsz & _ & Htext).
  - apply quiet_posix.
  - apply quiet_posix.
  - by vm_compute.
  - by vm_compute.
  - by vm_compute.
  - by vm_compute.
  - by vm_compute.
  - vm_compute. by eexists.
  - by vm_compute.
  - exists written, w1, got, w2. split; [done|]. split; [done|]. split.
    + by rewrite Hsz.
    + apply Htext; [by vm_compute|]. apply (bool_decide_unpack _). by vm_compute.
Defined.

(** X4.  A write that the policy refuses, because of the path, the
    extension or the size of the text, makes no storage call at all: the
    world, journal included, is the one before the call, and the parent
    directory is not even looked at. *)
Theorem refused_write_touches_nothing (cfg : Config) (self : SecureFileManager)
    (w : World) (p text : string) (create_dirs : bool) :
  allowed_in self w p = false ∨ _is_extension_allowed cfg p = false
  ∨ Str.len text > MAX_FILE_SIZE cfg →
  write_file cfg self p text create_dirs w
  = (Returned (Err (if negb (allowed_in self w p) then AccessDenied
                    else if negb (_is_extension_allowed cfg p)
                         then FileTypeNotAllowed (PurePath.suffix p)
                         else ContentTooLarge (MAX_FILE_SIZE cfg))), w).
Proof.
  intros Hrefused. eapply run_try_returned. step.
  destruct (allowed_in self w p) eqn:Ha; cbn [negb]; [|reflexivity].
  destruct (_is_extension_allowed cfg p) eqn:He; cbn [negb]; [|reflexivity].
  destruct Hrefused as [?|[?|Hs]]; [done..|].
  apply Z.gt_lt, Z.leb_gt in Hs. rewrite gtb_leb, Hs. reflexivity.
Qed.

Lemma refused_write_touches_nothing_witness :
  write_file module_config sandbox_manager "/sandbox/run.sh" "echo" true sandbox_world
  = (Returned (Err (FileTypeNotAllowed ".sh")), sandbox_world).
Proof.
  rewrite (refused_write_touches_nothing module_config sandbox_manager sandbox_world
             "/sandbox/run.sh" "echo" true) by (right; left; by vm_compute).
  by vm_compute.
Defined.

Lemma get_file_info_op_of_file (self : SecureFileManager) (w : World) (p d : string) :
  quiet w p → allowed_in self w p = true → node_at w p = Some (File d) →
  ∃ w', get_file_info self p w
        = (Returned (Ok {| fi_name := PurePath.name p;
                           fi_path := PurePath.str p;
                           fi_size := Str.len d;
                           fi_is_file := true;
                           fi_is_dir := false;
                           fi_extension := Str.lower (PurePath.suffix p) |}), w').
Proof.
  intros Hq Ha Hn. eexists. eapply run_try_returned. repeat advance.
  eapply run_bind; [apply get_file_info_of_file; solve [calm]|]. reflexivity.
Qed.

(** X5.  The extension policy guards reading and writing only.  For a file
    in an allowed directory whose extension the policy rejects, [read_file]
    answers that the file type is not allowed, while [get_file_hash] returns
    the digests of its bytes and [get_file_info] its metadata. *)
Theorem extension_policy_guards_content_only (cfg : Config) (self : SecureFileManager)
    (md5 sha1 sha256 : string → string) (w : World) (p d : string) :
  quiet w p → allowed_in self w p = true → node_at w p = Some (File d) →
  _is_extension_allowed cfg p = false → Str.len d <= MAX_FILE_SIZE cfg →
  (∃ w', read_file cfg self p None w
         = (Returned (Err (FileTypeNotAllowed (PurePath.suffix p))), w'))
  ∧ (∃ payload w', get_file_hash cfg self md5 sha1 sha256 p w = (Returned (Ok payload), w')
                   ∧ hs_size payload = Str.len d
                   ∧ hs_md5 payload = md5 d ∧ hs_sha1 payload = sha1 d
                   ∧ hs_sha256 payload = sha256 d)
  ∧ (∃ info w', get_file_info self p w = (Returned (Ok info), w')
                ∧ fi_size info = Str.len d ∧ fi_is_file info = true
                ∧ fi_extension info = Str.lower (PurePath.suffix p)).
Proof.
  intros Hq Ha Hn He Hs. split; [|split].
  - eexists. eapply run_try_returned. repeat advance.
  - by apply get_file_hash_within_limit.
  - destruct (get_file_info_op_of_file self w p d Hq Ha Hn) as (w' & Hrun).
    eexists _, w'. split; [exact Hrun|done].
Qed.

Lemma extension_policy_guards_content_only_witness :
  let p := "/sandbox/tool.EXE" in
  (∃ w', read_file module_config sandbox_manager p None tool_world
         = (Returned (Err (FileTypeNotAllowed ".EXE")), w'))
  ∧ (∃ payload w', get_file_hash module_config sandbox_manager id id id p tool_world
                   = (Returned (Ok payload), w')
                   ∧ hs_size payload = 2 ∧ hs_sha256 payload = "MZ")
  ∧ (∃ info w', get_file_info sandbox_manager p tool_world = (Returned (Ok info), w')
                ∧ fi_extension info = ".exe").
Proof.
  intros p.
  destruct (extension_policy_guards_content_only module_config sandbox_manager id id id
              tool_world p "MZ") as (Hread & Hhash & Hinfo).
  - apply quiet_posix.
  - by vm_compute.
  - by vm_compute.
  - by vm_compute.
  - by vm_compute.
  - split; [exact Hread|]. split.
    + destruct Hhash as (payload & w' & Hrun & Hsz & _ & _ & Hsha).
      exists payload, w'. split; [exact Hrun|]. split; [exact Hsz|exact Hsha].
    + destruct Hinfo as (info & w' & Hrun & _ & _ & Hext).
      exists info, w'. split; [exact Hrun|exact Hext].
Defined.

Lemma len_nonneg s : 0 <= Str.len s.
Proof. unfold Str.len. lia. Qed.

(** X6.  The falsy and the negative per-call limit of [read_file].  A
    [max_size] of 0 is not a limit of zero bytes: the call behaves exactly as
    one without [max_size].  A negative [max_size] is taken as it is, so every
    file that reaches the size check, the empty file included, is refused as
    too large. *)
Theorem read_limit_zero_and_negative (cfg : Config) (self : SecureFileManager)
    (w : World) (p d : string) (n : Z) :
  quiet w p → allowed_in self w p = true → node_at w p = Some (File d) →
  _is_extension_allowed cfg p = true → n < 0 →
  read_file cfg self p (Some 0) w = read_file cfg self p None w
  ∧ ∃ w', read_file cfg self p (Some n) w
          = (Returned (Err (FileTooLarge (Str.len d) n)), w').
Proof.
  intros Hq Ha Hn He Hneg. split; [reflexivity|].
  destruct (read_file_over_limit cfg self w p d Hq Ha Hn (Some n) He) as (w' & Hrun).
  - unfold or_else. destruct (Z.eqb_spec n 0); [lia|]. pose proof (len_nonneg d). lia.
  - exists w'. rewrite Hrun. unfold or_else. by destruct (Z.eqb_spec n 0); [lia|].
Qed.

Lemma read_limit_zero_and_negative_witness :
  read_file module_config sandbox_manager "/sandbox/notes.txt" (Some 0) sandbox_world
  = read_file module_config sandbox_manager "/sandbox/notes.txt" None sandbox_world
  ∧ ∃ w', read_file module_config sandbox_manager "/sandbox/notes.txt" (Some (-1))
            sandbox_world
          = (Returned (Err (FileTooLarge 11 (-1))), w').
Proof.
  apply (read_limit_zero_and_negative module_config sandbox_manager sandbox_world
           "/sandbox/notes.txt" "hello world" (-1)).
  - apply quiet_posix.
  - by vm_compute.
  - by vm_compute.
  - by vm_compute.
  - done.
Defined.

(** * Construction *)

Lemma resolve_all_returns (w : World) (l : list string) (acc : gset string) :
  (∀ d, d ∈ l → is_Some (canon w d)) →
  for_each l (λ d (acc : gset string), c ← Path.resolve d; mret ({[c]} ∪ acc)) acc w
  = (Returned (acc ∪ list_to_set (omap (canon w) l)), w).
Proof.
  revert acc. induction l as [|d l IH]; intros acc Hall; simpl.
  - unfold mret, M_ret. do 2 f_equal. simpl. by rewrite union_empty_r_L.
  - destruct (Hall d) as [c Hc]; [by left|].
    eapply run_bind.
    { eapply run_bind; [unfold Path.resolve; by rewrite Hc|]. reflexivity. }
    rewrite IH by (intros d' Hd'; apply Hall; by right).
    rewrite Hc. simpl. do 2 f_equal.
    by rewrite (comm_L (∪) {[c]} acc), (assoc_L (∪)).
Qed.

Lemma resolve_all_raises (w : World) (l : list string) (acc : gset string) :
  (∃ d, d ∈ l ∧ canon w d = None) →
  for_each l (λ d (acc : gset string), c ← Path.resolve d; mret ({[c]} ∪ acc)) acc w
  = (Raised RuntimeError, w).
Proof.
  revert acc. induction l as [|d l IH]; intros acc (bad & Hin & Hbad).
  - by apply elem_of_nil in Hin.
  - simpl. destruct (canon w d) as [c|] eqn:Hc.
    + eapply run_bind.
      { eapply run_bind; [unfold Path.resolve; by rewrite Hc|]. reflexivity. }
      apply IH. exists bad. split; [|done].
      apply elem_of_cons in Hin as [->|Hin]; [congruence|done].
    + apply run_bind_raised, run_bind_raised. unfold Path.resolve. by rewrite Hc.
Qed.

(** X7.  Construction of the manager.  An empty set of directories is
    treated like no set: the defaults are used.  When every chosen directory
    resolves, the manager holds exactly their resolved forms, the world is
    untouched, and a path whose resolved form extends one of them passes the
    path check.  When one of them does not resolve, the exception leaves the
    constructor: nothing catches it there. *)
Theorem init_resolves_the_chosen_directories (DEFAULT_ALLOWED_DIRS : gset string)
    (dirs : option (gset string)) (w : World) :
  init DEFAULT_ALLOWED_DIRS (Some ∅) = init DEFAULT_ALLOWED_DIRS None
  ∧ ((∀ d, d ∈ chosen_dirs DEFAULT_ALLOWED_DIRS dirs → is_Some (canon w d)) →
     ∃ self, init DEFAULT_ALLOWED_DIRS dirs w = (Returned self, w)
             ∧ (∀ c, c ∈ allowed_dirs self ↔
                     ∃ d, d ∈ chosen_dirs DEFAULT_ALLOWED_DIRS dirs ∧ canon w d = Some c)
             ∧ (∀ d c p x, d ∈ chosen_dirs DEFAULT_ALLOWED_DIRS dirs →
                           canon w d = Some c → canon w p = Some (c ++ x) →
                           _is_path_allowed self p w = (Returned true, w)))
  ∧ ((∃ d, d ∈ chosen_dirs DEFAULT_ALLOWED_DIRS dirs ∧ canon w d = None) →
     init DEFAULT_ALLOWED_DIRS dirs w = (Raised RuntimeError, w)).
Proof.
  split; [|split].
  - unfold init. by rewrite decide_True.
  - intros Hall. eexists. split; [|split].
    + unfold init. fold (chosen_dirs DEFAULT_ALLOWED_DIRS dirs).
      eapply run_bind; [|reflexivity].
      apply resolve_all_returns. intros d Hd. apply Hall. by apply elem_of_elements.
    + intros c. simpl. rewrite elem_of_union, elem_of_list_to_set, list_elem_of_omap.
      split.
      * intros [Hc|(d & Hd & Hc)]; [by apply elem_of_empty in Hc|].
        exists d. split; [by apply elem_of_elements|done].
      * intros (d & Hd & Hc). right. exists d. split; [by apply elem_of_elements|done].
    + intros d c p x Hd Hc Hp. eapply extension_of_root_allowed; [|exact Hp].
      simpl. rewrite elem_of_union, elem_of_list_to_set, list_elem_of_omap.
      right. exists d. split; [by apply elem_of_elements|done].
  - intros (d & Hd & Hbad). unfold init. fold (chosen_dirs DEFAULT_ALLOWED_DIRS dirs).
    apply run_bind_raised, resolve_all_raises.
    exists d. split; [by apply elem_of_elements|done].
Qed.

Lemma init_resolves_the_chosen_directories_witness :
  (∃ self, init {[ "/home" ]} (Some {[ "/data" ]}) linked_world = (Returned self, linked_world)
           ∧ (∀ c, c ∈ allowed_dirs self ↔ c = "/sandbox")
           ∧ _is_path_allowed self "/sandbox/notes.txt" linked_world
             = (Returned true, linked_world))
  ∧ init {[ "/home" ]} (Some {[ "/data"; "/loop" ]}) linked_world
    = (Raised RuntimeError, linked_world).
Proof.
  assert (Hone : chosen_dirs {[ "/home" ]} (Some {[ "/data" ]}) = {[ "/data" ]})
    by (by vm_compute).
  assert (Htwo : "/loop" ∈ chosen_dirs {[ "/home" ]} (Some {[ "/data"; "/loop" ]}))
    by (apply (bool_decide_unpack _); by vm_compute).
  split.
  - destruct (proj1 (proj2 (init_resolves_the_chosen_directories
                              {[ "/home" ]} (Some {[ "/data" ]}) linked_world)))
      as (self & Hrun & Hdirs & Hallowed).
    + intros d Hd. rewrite Hone in Hd. apply elem_of_singleton in Hd as ->. by eexists.
    + exists self. split; [exact Hrun|]. split.
      * intros c. rewrite Hdirs, Hone. split.
        -- intros (d & Hd & Hc). apply elem_of_singleton in Hd as ->. by injection Hc.
        -- intros ->. exists "/data". split; [by apply elem_of_singleton|done].
      * apply (Hallowed "/data" "/sandbox" "/sandbox/notes.txt" "/notes.txt"); [|done..].
        rewrite Hone. by apply elem_of_singleton.
  - apply (proj2 (proj2 (init_resolves_the_chosen_directories
                           {[ "/home" ]} (Some {[ "/data"; "/loop" ]}) linked_world))).
    exists "/loop". by split.
Defined.

(** * Listing *)

Lemma length_insert_by {A} (key : A → string) x (l : list A) :
  List.length (insert_by key x l) = S (List.length l).
Proof.
  induction l as [|y l IH]; [done|]. simpl.
  destruct (String.leb (key x) (key y)); simpl; congruence.
Qed.

Lemma length_sort_by {A} (key : A → string) (l : list A) :
  List.length (sort_by key l) = List.length l.
Proof.
  induction l as [|x l IH]; [done|]. unfold sort_by in *. simpl.
  by rewrite length_insert_by, IH.
Qed.

Lemma insert_by_perm {A} (key : A → string) x (l : list A) :
  insert_by key x l ≡ₚ x :: l.
Proof.
  induction l as [|y l IH]; [done|]. simpl.
  destruct (String.leb (key x) (key y)); [done|].
  rewrite IH. apply Permutation_swap.
Qed.

Lemma sort_by_perm {A} (key : A → string) (l : list A) : sort_by key l ≡ₚ l.
Proof.
  induction l as [|x l IH]; [done|]. unfold sort_by in *. simpl.
  by rewrite insert_by_perm, IH.
Qed.

Lemma insert_by_sorted {A} (key : A → string) x (l : list A) :
  Sorted (λ a b, String.leb (key a) (key b) = true) l →
  Sorted (λ a b, String.leb (key a) (key b) = true) (insert_by key x l).
Proof.
  induction l as [|y l IH]; intros Hl; simpl.
  - by repeat constructor.
  - destruct (String.leb (key x) (key y)) eqn:E.
    + constructor; [done|]. by constructor.
    + apply Sorted_inv in Hl as [Hl Hhd]. constructor; [by apply IH|].
      assert (Hyx : String.leb (key y) (key x) = true).
      { destruct (String.leb_total (key x) (key y)); congruence. }
      destruct l as [|z l]; simpl.
      * by constructor.
      * destruct (String.leb (key x) (key z)); constructor; [done|].
        by apply HdRel_inv in Hhd.
Qed.

Lemma sort_by_sorted {A} (key : A → string) (l : list A) :
  Sorted (λ a b, String.leb (key a) (key b) = true) (sort_by key l).
Proof.
  induction l as [|x l IH]; [constructor|]. unfold sort_by in *. simpl.
  by apply insert_by_sorted.
Qed.

Lemma wp_is_file p (Q : outcome bool → World → Prop) w :
  (∀ e w', same_disk w w' → Q (Raised e) w') →
  (∀ w', same_disk w w' →
         Q (Returned (match node_at w p with Some (File _) => true | _ => false end)) w') →
  wp (Path.is_file p) Q w.
Proof.
  intros Hraise Hret. unfold wp, Path.is_file, Path.sys.
  destruct (faults w SysIsFile p); [by apply Hraise|by apply Hret].
Qed.

Lemma wp_is_dir p (Q : outcome bool → World → Prop) w :
  (∀ e w', same_disk w w' → Q (Raised e) w') →
  (∀ w', same_disk w w' →
         Q (Returned (match node_at w p with Some Dir => true | _ => false end)) w') →
  wp (Path.is_dir p) Q w.
Proof.
  intros Hraise Hret. unfold wp, Path.is_dir, Path.sys.
  destruct (faults w SysIsDir p); [by apply Hraise|by apply Hret].
Qed.

(** No entry is reported as both a file and a directory. *)
Lemma get_file_info_kind p :
  yields (_get_file_info p) (λ d, info_is_file d && info_is_dir d = false).
Proof.
  intros w. apply wp_try_catch, wp_bind, wp_readonly; [apply readonly_stat|].
  intros [st_size|e] w1 Hw1; simpl; [|by apply wp_ret].
  apply wp_bind, wp_is_file; [intros e w2 _; by apply wp_ret|].
  intros w2 Hw2. simpl.
  apply wp_bind, wp_is_dir; [intros e w3 _; by apply wp_ret|].
  intros w3 _. simpl. apply wp_ret. simpl.
  rewrite (same_disk_node_at w1 w2) by done.
  by destruct (node_at w1 p) as [[|d]|].
Qed.

Lemma filter_kinds_length (items : list InfoDict) :
  Forall (λ d, info_is_file d && info_is_dir d = false) items →
  (List.length (filter (λ i, info_is_file i = true) items)
   + List.length (filter (λ i, info_is_dir i = true) items)
   ≤ List.length items)%nat.
Proof.
  induction 1 as [|d items Hd _ IH]; [done|].
  rewrite !filter_cons. simpl.
  destruct (info_is_file d), (info_is_dir d); simpl in *; try done;
    repeat case_decide; simpl; try done; lia.
Qed.

Lemma list_directory_shape self dir_path include_hidden :
  yields (list_directory self dir_path include_hidden)
    (λ r, ∀ payload, r = Ok payload →
       Sorted by_name (ls_items payload)
       ∧ Forall (listed include_hidden) (ls_items payload)
       ∧ ls_total_items payload = Z.of_nat (List.length (ls_items payload))
       ∧ ls_files payload + ls_directories payload <= ls_total_items payload
       ∧ ls_directory payload = PurePath.str dir_path).
Proof.
  apply yields_try_catch; [|intros e; by apply yields_ret].
  apply yields_bind. intros allowed. destruct (negb allowed); [by apply yields_ret|].
  apply yields_bind. intros ex. destruct (negb ex); [by apply yields_ret|].
  apply yields_bind. intros is_dir. destruct (negb is_dir); [by apply yields_ret|].
  apply yields_bind. intros entries.
  eapply (yields_bind_with _ _ (Forall (listed include_hidden))).
  - apply yields_for_each; [done|]. intros item items Hitems.
    destruct (negb include_hidden && Str.startswith (PurePath.name item) ".") eqn:Hhid;
      [by apply yields_ret|].
    eapply (yields_bind_with _ _ (λ d, (∀ i, d = Info i → fi_name i = PurePath.name item)
                                       ∧ info_is_file d && info_is_dir d = false)).
    + intros w. pose proof (get_file_info_name item w) as H1.
      pose proof (get_file_info_kind item w) as H2. unfold wp in *.
      by destruct (_get_file_info item w).1.
    + intros d [Hname Hkind]. apply yields_ret. apply Forall_app. split; [done|].
      apply Forall_singleton. split; [|done].
      intros ->. simpl in Hhid. destruct d as [i|e]; simpl; [|done].
      by rewrite (Hname i eq_refl).
  - intros items Hitems. apply yields_ret. intros payload [= <-]. simpl.
    split; [apply sort_by_sorted|].
    assert (Hall : Forall (listed include_hidden)
                     (sort_by (λ x, Str.lower (info_name x)) items))
      by (by rewrite sort_by_perm).
    split; [done|]. split; [done|]. split; [|done].
    pose proof (filter_kinds_length (sort_by (λ x, Str.lower (info_name x)) items)) as Hk.
    rewrite <- !Nat2Z.inj_add. apply Nat2Z.inj_le, Hk.
    eapply Forall_impl; [exact Hall|]. by intros d [_ ?].
Qed.

Lemma leb_trans (s1 s2 s3 : string) :
  String.leb s1 s2 = true → String.leb s2 s3 = true → String.leb s1 s3 = true.
Proof.
  unfold String.leb. revert s2 s3.
  induction s1 as [|a s1 IH]; intros [|b s2] [|c s3]; simpl; try done.
  unfold Ascii.compare.
  destruct (N.compare_spec (N_of_ascii a) (N_of_ascii b)) as [Hab|Hab|Hab];
    destruct (N.compare_spec (N_of_ascii b) (N_of_ascii c)) as [Hbc|Hbc|Hbc];
    destruct (N.compare_spec (N_of_ascii a) (N_of_ascii c)) as [Hac|Hac|Hac];
    try done; try lia.
  apply IH.
Qed.

Lemma by_name_trans : Transitive by_name.
Proof. intros a b c. apply leb_trans. Qed.

Lemma StronglySorted_filter {A} (R : A → A → Prop) (P : A → Prop)
    `{∀ x, Decision (P x)} (l : list A) :
  StronglySorted R l → StronglySorted R (filter P l).
Proof.
  induction 1 as [|x l Hl IH Hx]; [constructor|].
  rewrite filter_cons. destruct (decide (P x)); [|done].
  constructor; [done|]. apply Forall_forall. intros y Hy.
  apply list_elem_of_filter in Hy as [_ Hy]. rewrite Forall_forall in Hx. by apply Hx.
Qed.

(** X9.  The shape of a listing.  The entries with ASCII names are in the
    order of their lower-cased names, wherever the other entries stand
    (beyond ASCII the source orders by Python's Unicode lower-casing, which
    is not modelled); unless [include_hidden] is set no entry has a name that
    starts with a dot; [total_items] is the number of entries; no entry
    counts both as a file and as a directory, so [files] and [directories]
    together do not exceed [total_items] (entries whose metadata could not
    be read count in neither). *)
Theorem listing_is_sorted_and_filtered (self : SecureFileManager)
    (dir_path : string) (include_hidden : bool) (w w' : World) (payload : ListPayload) :
  list_directory self dir_path include_hidden w = (Returned (Ok payload), w') →
  Sorted by_name (filter (λ d, Str.is_ascii (info_name d) = true) (ls_items payload))
  ∧ (include_hidden = false →
     ∀ d, d ∈ ls_items payload → Str.startswith (info_name d) "." = false)
  ∧ ls_total_items payload = Z.of_nat (List.length (ls_items payload))
  ∧ ls_files payload + ls_directories payload <= ls_total_items payload.
Proof.
  intros Hrun.
  destruct (yields_run _ _ _ _ _ (list_directory_shape self dir_path include_hidden)
              Hrun payload eq_refl) as (Hsorted & Hall & Htotal & Hcount & _).
  split; [|split; [|done]].
  - apply StronglySorted_Sorted, StronglySorted_filter.
    apply Sorted_StronglySorted; [apply by_name_trans|done].
  - intros Hhid d Hd. rewrite Forall_forall in Hall. by apply (Hall d Hd).
Qed.

Lemma listing_is_sorted_and_filtered_witness :
  ∃ payload w',
    list_directory sandbox_manager "/sandbox" false home_world = (Returned (Ok payload), w')
    ∧ map info_name (ls_items payload) = ["A.txt"; "b.txt"; "sub"]
    ∧ Sorted by_name
        (filter (λ d, Str.is_ascii (info_name d) = true) (ls_items payload))
    ∧ ls_files payload + ls_directories payload <= ls_total_items payload.
Proof.
  eexists _, _. split; [vm_compute; reflexivity|]. split; [reflexivity|].
  edestruct (listing_is_sorted_and_filtered sandbox_manager "/sandbox" false home_world)
    as (Hsorted & _ & _ & Hcount).
  - vm_compute. reflexivity.
  - split; [exact Hsorted|exact Hcount].
Defined.

Lemma iterdir_same_disk p w w' :
  same_disk w w' → (Path.iterdir p w').1 = (Path.iterdir p w).1.
Proof.
  intros (Hc & Hf & Hs). unfold Path.iterdir, Path.sys, Path.keys.
  rewrite Hf. destruct (faults w SysIterdir p); [done|].
  cbn [canon store record_call]. rewrite Hc, Hs.
  destruct (canon w p) as [c|]; [|done].
  by destruct (store w !! c) as [[|d]|].
Qed.

Lemma iterdir_returns p w :
  faults w SysIterdir p = None → node_at w p = Some Dir →
  ∃ entries, Path.iterdir p w = (Returned entries, record_call SysIterdir p w).
Proof.
  intros Hf Hn. unfold Path.iterdir, Path.sys. rewrite Hf.
  unfold node_at in Hn. cbn [canon store record_call].
  destruct (canon w p) as [c|]; [|done]. simpl in Hn. rewrite Hn. by eexists.
Qed.

Lemma listing_loop include_hidden (entries : list string) (acc : list InfoDict) w :
  ∃ items w',
    for_each entries
      (λ item (items : list InfoDict),
         if negb include_hidden && Str.startswith (PurePath.name item) "."
         then mret items
         else item_info ← _get_file_info item; mret (items ++ [item_info])%list)
      acc w
    = (Returned (acc ++ items)%list, w')
    ∧ List.length items
      = List.length (filter (λ item, shown include_hidden item = true) entries).
Proof.
  revert acc w. induction entries as [|item entries IH]; intros acc w; simpl.
  - exists [], w. by rewrite app_nil_r.
  - rewrite filter_cons.
    assert (Hshown : shown include_hidden item
                     = negb (negb include_hidden
                             && Str.startswith (PurePath.name item) ".")).
    { unfold shown. by destruct include_hidden, (Str.startswith _ _). }
    destruct (negb include_hidden && Str.startswith (PurePath.name item) ".").
    + destruct (IH acc w) as (items & w' & Hrun & Hlen).
      exists items, w'. split.
      * eapply run_bind; [reflexivity|]. exact Hrun.
      * rewrite decide_False; [done|]. by rewrite Hshown.
    + destruct (get_file_info_returns item w) as (info & w1 & Hinfo).
      destruct (IH (acc ++ [info])%list w1) as (items & w' & Hrun & Hlen).
      exists (info :: items), w'. split.
      * eapply run_bind; [eapply run_bind; [exact Hinfo|reflexivity]|].
        by rewrite Hrun, <- app_assoc.
      * rewrite decide_True by (by rewrite Hshown). simpl. by rewrite Hlen.
Qed.

(** X8.  A listing does not fail on its entries.  On an existing allowed
    directory, with no fault on the directory itself, [list_directory]
    returns a payload whatever the platform raises on the entries, and
    [total_items] counts every entry of the directory that is not hidden
    (every entry when [include_hidden] is set): an entry whose metadata
    cannot be read is listed as an error entry. *)
Theorem listing_survives_entry_faults (self : SecureFileManager)
    (dir_path : string) (include_hidden : bool) (w : World) (entries : list string) :
  faults w SysExists dir_path = None → faults w SysIsDir dir_path = None →
  faults w SysIterdir dir_path = None →
  allowed_in self w dir_path = true → node_at w dir_path = Some Dir →
  (Path.iterdir dir_path w).1 = Returned entries →
  ∃ payload w',
    list_directory self dir_path include_hidden w = (Returned (Ok payload), w')
    ∧ ls_total_items payload
      = Z.of_nat (List.length (filter (λ item, shown include_hidden item = true) entries))
    ∧ List.length (ls_items payload)
      = List.length (filter (λ item, shown include_hidden item = true) entries).
Proof.
  intros He Hd Hi Ha Hn Hentries.
  set (w2 := record_call SysIsDir dir_path (record_call SysExists dir_path w)).
  assert (Hrun : Path.iterdir dir_path w2 = (Returned entries, record_call SysIterdir dir_path w2)).
  { destruct (iterdir_returns dir_path w2) as (entries' & Hrun); [done..|].
    rewrite Hrun. do 2 f_equal.
    assert (Heq : (Path.iterdir dir_path w2).1 = (Path.iterdir dir_path w).1)
      by (by apply iterdir_same_disk).
    rewrite Hrun, Hentries in Heq. by injection Heq. }
  destruct (listing_loop include_hidden entries [] (record_call SysIterdir dir_path w2))
    as (items & w' & Hloop & Hlen).
  eexists _, w'. split; [|split].
  - eapply run_try_returned. repeat advance.
    eapply run_bind; [exact Hrun|].
    eapply run_bind; [exact Hloop|]. reflexivity.
  - simpl. by rewrite length_sort_by, Hlen.
  - simpl. by rewrite length_sort_by, Hlen.
Qed.

Lemma listing_survives_entry_faults_witness :
  let w := mkWorld (Posix.resolve []) 
             (λ c p, if decide (p = "/sandbox/b.txt") then Some PermissionError else None)
             (store home_world) [] in
  ∃ payload w',
    list_directory sandbox_manager "/sandbox" true w = (Returned (Ok payload), w')
    ∧ ls_total_items payload = 4
    ∧ InfoError PermissionError ∈ ls_items payload.
Proof.
  intros w.
  destruct (listing_survives_entry_faults sandbox_manager "/sandbox" true w
              ["/sandbox/sub"; "/sandbox/A.txt"; "/sandbox/.env"; "/sandbox/b.txt"])
    as (payload & w' & Hrun & Htotal & _).
  - done.
  - done.
  - done.
  - by vm_compute.
  - by vm_compute.
  - vm_compute. reflexivity.
  - exists payload, w'. split; [exact Hrun|]. split; [exact Htotal|].
    assert (Hitems : (list_directory sandbox_manager "/sandbox" true w).1
                     = Returned (Ok payload)) by (by rewrite Hrun).
    vm_compute in Hitems. injection Hitems as <-. simpl. by left.
Defined.

(** * More on search *)

Lemma search_files_echo cfg self search_dir pattern include_content :
  yields (search_files cfg self search_dir pattern include_content)
    (λ r, ∀ payload, r = Ok payload →
       sr_total_matches payload = Z.of_nat (List.length (sr_matches payload))
       ∧ sr_pattern payload = pattern
       ∧ sr_search_directory payload = PurePath.str search_dir).
Proof.
  apply yields_try_catch; [|intros e; by apply yields_ret].
  apply yields_bind. intros allowed. destruct (negb allowed); [by apply yields_ret|].
  apply yields_bind. intros ex. apply yields_bind. intros is_dir.
  destruct (negb ex || negb is_dir); [by apply yields_ret|].
  do 2 (apply yields_bind; intros ?). apply yields_ret. by intros payload [= <-].
Qed.

(** X10.  A search reports an entry only if its name contains the pattern,
    letter case ignored, with or without [include_content]; [total_matches]
    is the number of entries reported.  The test on the name is stated for
    an ASCII pattern and the entries with an ASCII name, where the model's
    lower-casing is the source's. *)
Theorem search_reports_matching_names_only (cfg : Config) (self : SecureFileManager)
    (search_dir pattern : string) (include_content : bool) (w w' : World)
    (payload : SearchPayload) :
  search_files cfg self search_dir pattern include_content w = (Returned (Ok payload), w') →
  sr_total_matches payload = Z.of_nat (List.length (sr_matches payload))
  ∧ ∀ m i, m ∈ sr_matches payload → sm_info m = Info i →
           Str.is_ascii pattern = true → Str.is_ascii (fi_name i) = true →
           Str.contains (Str.lower pattern) (Str.lower (fi_name i)) = true.
Proof.
  intros Hrun. split.
  - by destruct (yields_run _ _ _ _ _ (search_files_echo cfg self search_dir pattern
                                         include_content) Hrun payload eq_refl).
  - intros m i Hm Hi _ _.
    pose proof (yields_run _ _ _ _ _ (search_files_sound cfg self search_dir pattern
                                        include_content) Hrun payload eq_refl) as Hall.
    rewrite Forall_forall in Hall. destruct (Hall m Hm) as [_ Hnamed]. by apply Hnamed.
Qed.

Lemma search_reports_matching_names_only_witness :
  ∃ payload w',
    search_files module_config sandbox_manager "/sandbox" "NOTES" true sandbox_world
    = (Returned (Ok payload), w')
    ∧ sr_total_matches payload = 1
    ∧ map (λ m, info_name (sm_info m)) (sr_matches payload) = ["notes.txt"]
    ∧ ∀ m i, m ∈ sr_matches payload → sm_info m = Info i →
             Str.contains (Str.lower "NOTES") (Str.lower (fi_name i)) = true.
Proof.
  eexists _, _. split; [vm_compute; reflexivity|]. split; [reflexivity|].
  split; [reflexivity|].
  edestruct (search_reports_matching_names_only module_config sandbox_manager
               "/sandbox" "NOTES" true sandbox_world) as [_ Hnames];
    [vm_compute; reflexivity|].
  intros m i Hm Hi. apply (Hnames m i Hm Hi eq_refl).
  apply list_elem_of_singleton in Hm. subst m. injection Hi as <-. reflexivity.
Defined.

Section NameSearch.

Context (cfg : Config) (self : SecureFileManager).

Local Ltac metadata :=
  first [ eapply safe_call; [apply exists_traced|by split]
        | eapply safe_call; [apply is_file_traced|by split]
        | eapply safe_call; [apply is_dir_traced|by split]
        | eapply safe_call; [apply stat_traced|by split]
        | eapply safe_call; [apply rglob_traced|by split]
        | apply safe_is_path_allowed ].

Lemma get_file_info_metadata_only p : safe metadata_only (_get_file_info p).
Proof.
  apply safe_try_catch; [|intros e; apply safe_ret].
  repeat (apply safe_bind; [metadata|intros ?]). apply safe_ret.
Qed.

Lemma name_search_metadata_only search_dir pattern :
  safe metadata_only (search_files cfg self search_dir pattern false).
Proof.
  apply safe_try_catch; [|intros e; apply safe_ret].
  apply safe_bind; [metadata|intros allowed].
  destruct (negb allowed); [apply safe_ret|].
  apply safe_bind; [metadata|intros ex].
  apply safe_bind; [destruct ex; [metadata|apply safe_ret]|intros is_dir].
  destruct (negb ex || negb is_dir); [apply safe_ret|].
  apply safe_bind; [metadata|intros entries].
  apply safe_bind; [|intros matches; apply safe_ret].
  apply safe_for_each. intros item acc. unfold search_item.
  apply safe_bind; [metadata|intros allowed'].
  destruct (negb allowed'); [apply safe_ret|].
  destruct (Str.contains _ _); [|apply safe_ret].
  apply safe_bind; [apply get_file_info_metadata_only|intros info].
  apply safe_bind; [apply safe_ret|intros m; apply safe_ret].
Qed.

Lemma name_search_by_filename search_dir pattern :
  yields (search_files cfg self search_dir pattern false)
    (λ r, ∀ payload, r = Ok payload → Forall by_filename (sr_matches payload)).
Proof.
  apply yields_try_catch; [|intros e; by apply yields_ret].
  apply yields_bind. intros allowed. destruct (negb allowed); [by apply yields_ret|].
  apply yields_bind. intros ex. apply yields_bind. intros is_dir.
  destruct (negb ex || negb is_dir); [by apply yields_ret|].
  apply yields_bind. intros entries.
  eapply (yields_bind_with _ _ (Forall by_filename)).
  - apply yields_for_each; [done|]. intros item acc Hacc. unfold search_item.
    apply yields_bind. intros allowed'.
    destruct (negb allowed'); [by apply yields_ret|].
    destruct (Str.contains _ _); [|by apply yields_ret].
    apply yields_bind. intros info.
    eapply (yields_bind_with _ _ by_filename); [by apply yields_ret|].
    intros m Hm. apply yields_ret. apply Forall_app. split; [done|].
    by apply Forall_singleton.
  - intros matches Hm. apply yields_ret. by intros payload [= <-].
Qed.

End NameSearch.

(** X11.  A search without [include_content] reads no content: none of its
    storage calls is [read_text] or [read_bytes], whatever the tree holds,
    and every match it reports is a match by name, without matching
    lines. *)
Theorem name_search_reads_no_content (cfg : Config) (self : SecureFileManager)
    (search_dir pattern : string) (w : World) :
  (∃ calls,
     journal (search_files cfg self search_dir pattern false w).2
     = (calls ++ journal w)%list
     ∧ ∀ c q, (c, q) ∈ calls → c ≠ SysReadText ∧ c ≠ SysReadBytes)
  ∧ ∀ payload m,
      (search_files cfg self search_dir pattern false w).1 = Returned (Ok payload) →
      m ∈ sr_matches payload →
      sm_match_type m = filename ∧ sm_matching_lines m = None.
Proof.
  split.
  - destruct (name_search_metadata_only cfg self search_dir pattern w w (grows_refl _ w))
      as (calls & Hj & Hall).
    exists calls. split; [done|]. intros c q Hin. rewrite Forall_forall in Hall.
    apply (Hall _ Hin).
  - intros payload m Hrun Hm.
    pose proof (name_search_by_filename cfg self search_dir pattern w) as Hy.
    unfold wp in Hy. rewrite Hrun in Hy. specialize (Hy payload eq_refl).
    rewrite Forall_forall in Hy. by apply Hy.
Qed.

Lemma name_search_reads_no_content_witness :
  ∃ payload w' calls,
    search_files module_config sandbox_manager "/sandbox" "notes" false sandbox_world
    = (Returned (Ok payload), w')
    ∧ journal w' = (calls ++ journal sandbox_world)%list
    ∧ (∀ c q, (c, q) ∈ calls → c ≠ SysReadText ∧ c ≠ SysReadBytes)
    ∧ ∀ m, m ∈ sr_matches payload → sm_match_type m = filename.
Proof.
  destruct (name_search_reads_no_content module_config sandbox_manager "/sandbox" "notes"
              sandbox_world) as [(calls & Hj & Hcalls) Hmatches].
  assert (Hrun : ∃ payload w',
             search_files module_config sandbox_manager "/sandbox" "notes" false
               sandbox_world = (Returned (Ok payload), w')).
  { eexists _, _. vm_compute. reflexivity. }
  destruct Hrun as (payload & w' & Hrun). rewrite Hrun in *.
  exists payload, w', calls. split; [done|]. split; [exact Hj|]. split; [exact Hcalls|].
  intros m Hm. by destruct (Hmatches payload m eq_refl Hm).
Defined.

(** * Tracking the world through a computation *)

Section Track.

Context (I : World → Prop).

Lemma track_ret {A} (a : A) (R : A → Prop) : R a → track I (mret a) R.
Proof. intros Ha w Hw. by apply wp_ret. Qed.

Lemma track_bind {A B} (m : M A) (f : A → M B) (R1 : A → Prop) (R : B → Prop) :
  track I m R1 → (∀ a, R1 a → track I (f a) R) → track I (m ≫= f) R.
Proof.
  intros Hm Hf w Hw. apply wp_bind. eapply wp_mono; [|by apply Hm].
  intros [a|e] w' [Hw' Ha]; simpl; [by apply Hf|done].
Qed.

Lemma track_try_catch {A} (body : M A) (classes : exn → bool) (handler : exn → M A)
    (R : A → Prop) :
  track I body R → (∀ e, track I (handler e) R) → track I (try_catch body classes handler) R.
Proof.
  intros Hb Hh w Hw. apply wp_try_catch. eapply wp_mono; [|by apply Hb].
  intros [a|e] w' [Hw' Ha]; simpl; [done|].
  destruct (classes e); [by apply Hh|done].
Qed.

Lemma track_for_each {A S} (xs : list A) (body : A → S → M S) (R : S → Prop) acc :
  R acc → (∀ x acc, R acc → track I (body x acc) R) → track I (for_each xs body acc) R.
Proof.
  intros Hacc Hbody w Hw.
  eapply wp_mono;
    [|apply (wp_for_each xs body (λ a w', I w' ∧ R a) (λ _ w', I w')); [done|]].
  - intros [a|e] w' H; simpl in *; [done|by split].
  - intros x a w1 _ [Hw1 Ha]. eapply wp_mono; [|by apply Hbody].
    intros [a'|e] w' [? ?]; simpl; done.
Qed.

Lemma track_weaken {A} (m : M A) (R R' : A → Prop) :
  (∀ a, R a → R' a) → track I m R → track I m R'.
Proof.
  intros HR Hm w Hw. eapply wp_mono; [|by apply Hm].
  intros [a|e] w' [? ?]; simpl; split; auto.
Qed.

End Track.

Lemma track_run {A} (I : World → Prop) (m : M A) (R : A → Prop) w a w' :
  track I m R → I w → m w = (Returned a, w') → I w' ∧ R a.
Proof. intros Hm Hw Hrun. specialize (Hm w Hw). unfold wp in Hm. by rewrite Hrun in Hm. Qed.

(** * The entries a search touches *)

Section CheckedSearch.

Context (cfg : Config) (self : SecureFileManager) (w0 : World).

Lemma checked_call {A} (m : M A) c q :
  readonly m → (∀ w, journal (m w).2 = (c, q) :: journal w) →
  allowed_in self w0 q = true →
  track (checked_calls self w0) m (λ _, True).
Proof.
  intros Hro Htr Ha w [Hc Hg]. unfold wp. split; [split|by destruct (m w).1].
  - destruct (Hro w) as (Hc' & _). by rewrite Hc'.
  - by eapply grows_call.
Qed.

Lemma checked_is_path_allowed q :
  track (checked_calls self w0) (_is_path_allowed self q)
        (λ b, b = allowed_in self w0 q).
Proof.
  intros w [Hc Hg]. unfold wp. rewrite is_path_allowed_eval. simpl.
  split; [done|]. unfold allowed_in. by rewrite Hc.
Qed.

Local Ltac call :=
  first [ eapply checked_call; [apply readonly_exists|apply exists_traced|done]
        | eapply checked_call; [apply readonly_is_file|apply is_file_traced|done]
        | eapply checked_call; [apply readonly_is_dir|apply is_dir_traced|done]
        | eapply checked_call; [apply readonly_stat|apply stat_traced|done]
        | eapply checked_call; [apply readonly_read_text|apply read_text_traced|done]
        | eapply checked_call; [apply readonly_rglob|apply rglob_traced|done] ].

Local Ltac next := eapply track_bind; [call|intros ? _].

Lemma checked_get_file_info q :
  allowed_in self w0 q = true →
  track (checked_calls self w0) (_get_file_info q) (λ _, True).
Proof.
  intros Ha. apply track_try_catch; [|intros e; by apply track_ret].
  do 3 next. by apply track_ret.
Qed.

Lemma checked_search_item pattern include_content item matches :
  track (checked_calls self w0)
        (search_item cfg self pattern include_content item matches) (λ _, True).
Proof.
  unfold search_item.
  eapply track_bind; [apply checked_is_path_allowed|]. intros allowed ->.
  destruct (allowed_in self w0 item) eqn:Ha; simpl; [|by apply track_ret].
  destruct (Str.contains _ _); [|by apply track_ret].
  eapply track_bind; [by apply checked_get_file_info|]. intros info _.
  eapply (track_bind _ _ _ (λ _, True)); [|intros m _; by apply track_ret].
  destruct include_content; [|by apply track_ret].
  next. destruct (_ && _); [|by apply track_ret].
  apply track_try_catch; [|intros e; by apply track_ret].
  next. destruct (_ <=? _); [|by apply track_ret].
  next. destruct (Str.contains _ _); by apply track_ret.
Qed.

Lemma checked_search_files search_dir pattern include_content :
  track (checked_calls self w0)
        (search_files cfg self search_dir pattern include_content) (λ _, True).
Proof.
  apply track_try_catch; [|intros e; by apply track_ret].
  eapply track_bind; [apply checked_is_path_allowed|]. intros allowed ->.
  destruct (allowed_in self w0 search_dir) eqn:Ha; simpl; [|by apply track_ret].
  next. eapply (track_bind _ _ _ (λ _, True)); [|intros is_dir _].
  { destruct a; [call|by apply track_ret]. }
  destruct (_ || _); [by apply track_ret|].
  next. eapply (track_bind _ _ _ (λ _, True)); [|intros ms _; by apply track_ret].
  apply track_for_each; [done|]. intros item acc _. apply checked_search_item.
Qed.

End CheckedSearch.

(** X12.  A search touches only what the path check lets through: every
    storage call [search_files] makes, on the search directory or on an entry
    below it, is on a path that passes the path check.  An entry that leads
    outside the allowed directories, as a symbolic link can, is skipped
    before anything is asked about it. *)
Theorem search_touches_allowed_paths_only (cfg : Config) (self : SecureFileManager)
    (search_dir pattern : string) (include_content : bool) (w : World) :
  ∃ calls,
    journal (search_files cfg self search_dir pattern include_content w).2
    = (calls ++ journal w)%list
    ∧ ∀ c q, (c, q) ∈ calls → allowed_in self w q = true.
Proof.
  pose proof (checked_search_files cfg self w search_dir pattern include_content w) as H.
  unfold wp in H. destruct H as [[_ (calls & Hj & Hall)] _].
  { split; [done|apply grows_refl]. }
  exists calls. split; [done|]. intros c q Hin. rewrite Forall_forall in Hall.
  apply (Hall _ Hin).
Qed.

(** * Matching lines *)

Lemma split_nonempty sep s : ∃ x xs, Str.split sep s = x :: xs.
Proof.
  destruct s as [|a s]; simpl; [by eexists _, _|].
  destruct (Ascii.eqb a sep); [by eexists _, _|].
  destruct (Str.split sep s); by eexists _, _.
Qed.

Lemma contains_of_prefix p s : String.prefix p s = true → Str.contains p s = true.
Proof. intros H. destruct s; cbn [Str.contains]; by rewrite H. Qed.

Lemma prefix_first_line p s :
  Str.LF ∉ list_ascii_of_string p → String.prefix p s = true →
  ∃ x xs, Str.split Str.LF s = x :: xs ∧ String.prefix p x = true.
Proof.
  revert p. induction s as [|b s IH]; intros p Hlf Hp.
  - exists "", []. by destruct p.
  - destruct p as [|a p].
    + destruct (split_nonempty Str.LF (String b s)) as (x & xs & Hx).
      exists x, xs. split; [done|]. by destruct x.
    + simpl in Hp. destruct (Ascii.ascii_dec a b) as [<-|]; [|done].
      simpl in Hlf. apply not_elem_of_cons in Hlf as [Ha Hlf].
      destruct (IH p Hlf Hp) as (x & xs & Hx & Hpx).
      exists (String a x), xs. simpl.
      destruct (Ascii.eqb_spec a Str.LF) as [->|_]; [done|].
      rewrite Hx. split; [done|]. by destruct (Ascii.ascii_dec a a).
Qed.

Lemma contains_some_line p s :
  Str.LF ∉ list_ascii_of_string p → Str.contains p s = true →
  ∃ line, line ∈ Str.split Str.LF s ∧ Str.contains p line = true.
Proof.
  intros Hlf. induction s as [|b s IH]; intros Hc.
  - cbn [Str.contains] in Hc. rewrite orb_false_r in Hc.
    destruct (prefix_first_line p "" Hlf Hc) as (x & xs & Hx & Hpx).
    exists x. rewrite Hx. split; [by left|by apply contains_of_prefix].
  - cbn [Str.contains] in Hc. apply orb_true_iff in Hc as [Hp|Hc].
    + destruct (prefix_first_line p (String b s) Hlf Hp) as (x & xs & Hx & Hpx).
      exists x. rewrite Hx. split; [by left|by apply contains_of_prefix].
    + destruct (IH Hc) as (line & Hin & Hline). simpl.
      destruct (Ascii.eqb b Str.LF); [exists line; split; [by right|done]|].
      destruct (Str.split Str.LF s) as [|x xs]; [by apply elem_of_nil in Hin|].
      apply elem_of_cons in Hin as [->|Hin].
      * exists (String b x). split; [by left|]. cbn [Str.contains].
        by rewrite Hline, orb_true_r.
      * exists line. split; [by right|done].
Qed.

Lemma lower_char_lf a : Ascii.eqb (Str.lower_char a) Str.LF = Ascii.eqb a Str.LF.
Proof. by destruct a as [[] [] [] [] [] [] [] []]. Qed.

Lemma split_lower s :
  Str.split Str.LF (Str.lower s) = map Str.lower (Str.split Str.LF s).
Proof.
  induction s as [|a s IH]; [done|]. simpl. rewrite lower_char_lf, IH.
  destruct (Ascii.eqb a Str.LF); [done|].
  by destruct (Str.split Str.LF s).
Qed.

Lemma lower_keeps_lf_out p :
  Str.LF ∉ list_ascii_of_string p → Str.LF ∉ list_ascii_of_string (Str.lower p).
Proof.
  induction p as [|a p IH]; [done|]. simpl. intros Hlf.
  apply not_elem_of_cons in Hlf as [Ha Hlf]. apply not_elem_of_cons. split; [|by apply IH].
  intros Heq. apply Ha. symmetry.
  apply Ascii.eqb_eq. rewrite <- lower_char_lf. by apply Ascii.eqb_eq.
Qed.

Section Numbered.

Context (pattern : string).

Lemma numbered_entries start (lines : list string) n t :
  (n, t) ∈ omap (numbered_match pattern) (enumerate start lines) →
  start <= n
  ∧ ∃ line, lines !! Z.to_nat (n - start) = Some line
            ∧ t = Str.strip line
            ∧ Str.contains (Str.lower pattern) (Str.lower line) = true.
Proof.
  revert start. induction lines as [|line lines IH]; intros start Hin; simpl in Hin.
  - by apply elem_of_nil in Hin.
  - destruct (Str.contains (Str.lower pattern) (Str.lower line)) eqn:Hc.
    + apply elem_of_cons in Hin as [[= -> ->]|Hin].
      * split; [lia|]. exists line. by rewrite Z.sub_diag.
      * destruct (IH _ Hin) as (Hle & l & Hl & Ht & Hcl). split; [lia|].
        exists l. split; [|done].
        replace (Z.to_nat (n - start)) with (S (Z.to_nat (n - (start + 1)))) by lia.
        done.
    + destruct (IH _ Hin) as (Hle & l & Hl & Ht & Hcl). split; [lia|].
      exists l. split; [|done].
      replace (Z.to_nat (n - start)) with (S (Z.to_nat (n - (start + 1)))) by lia.
      done.
Qed.

Lemma numbered_increasing start (lines : list string) :
  StronglySorted Z.lt (omap (numbered_match pattern) (enumerate start lines)).*1.
Proof.
  revert start. induction lines as [|line lines IH]; intros start; simpl.
  - constructor.
  - destruct (Str.contains (Str.lower pattern) (Str.lower line)); [|apply IH].
    simpl. constructor; [apply IH|].
    apply Forall_forall. intros n Hn. apply list_elem_of_fmap in Hn as ([n' t] & -> & Hin).
    destruct (numbered_entries _ _ _ _ Hin) as [Hle _]. simpl. lia.
Qed.

Lemma numbered_nonempty start (lines : list string) line :
  line ∈ lines → Str.contains (Str.lower pattern) (Str.lower line) = true →
  omap (numbered_match pattern) (enumerate start lines) ≠ [].
Proof.
  revert start. induction lines as [|l lines IH]; intros start Hin Hc.
  - by apply elem_of_nil in Hin.
  - simpl. destruct (Str.contains (Str.lower pattern) (Str.lower l)) eqn:Hl; [done|].
    apply elem_of_cons in Hin as [->|Hin]; [congruence|]. by apply IH.
Qed.

End Numbered.

(** X14.  The matching lines of an ASCII text for an ASCII pattern (where
    the model's lower-casing and stripping are the source's).  Each reported
    entry carries the number, counted from 1, of a line of the text that
    contains the pattern, letter case ignored, together with that line
    stripped of surrounding white space; the numbers are strictly
    increasing, so the entries are the first ones in the text; and when the
    text contains the pattern and the pattern spans no line break, at least
    one line is reported. *)
Theorem matching_lines_are_genuine (pattern text : string) :
  Str.is_ascii pattern = true → Str.is_ascii text = true →
  let reported := take 10 (find_matching_lines pattern text) in
  (∀ n t, (n, t) ∈ reported →
     1 <= n
     ∧ ∃ line, Str.split Str.LF text !! Z.to_nat (n - 1) = Some line
               ∧ t = Str.strip line
               ∧ Str.contains (Str.lower pattern) (Str.lower line) = true)
  ∧ StronglySorted Z.lt reported.*1
  ∧ (Str.contains (Str.lower pattern) (Str.lower text) = true →
     Str.LF ∉ list_ascii_of_string pattern → reported ≠ []).
Proof.
  intros _ _ reported. split; [|split].
  - intros n t Hin. apply (numbered_entries pattern 1 (Str.split Str.LF text)).
    by apply (subseteq_take 10) in Hin.
  - unfold reported. rewrite fmap_take.
    pose proof (numbered_increasing pattern 1 (Str.split Str.LF text)) as Hs.
    unfold find_matching_lines.
    remember (omap _ (enumerate 1 (Str.split Str.LF text))).*1 as l eqn:El.
    clear El. revert Hs. generalize 10%nat as k.
    induction l as [|x l IH]; intros k Hs; destruct k; simpl; try constructor.
    + apply IH. by apply StronglySorted_inv in Hs as [? _].
    + apply StronglySorted_inv in Hs as [_ Hall].
      apply Forall_forall. intros y Hy. rewrite Forall_forall in Hall.
      apply Hall. by apply (subseteq_take k).
  - intros Hc Hlf.
    destruct (contains_some_line (Str.lower pattern) (Str.lower text)
                (lower_keeps_lf_out _ Hlf) Hc) as (line' & Hin & Hline).
    rewrite split_lower in Hin. apply list_elem_of_fmap in Hin as (line & -> & Hin).
    pose proof (numbered_nonempty pattern 1 _ line Hin Hline) as Hne.
    unfold reported, find_matching_lines.
    destruct (omap _ (enumerate 1 (Str.split Str.LF text))); [done|done].
Qed.

Lemma matching_lines_are_genuine_witness :
  take 10 (find_matching_lines "Hello" (String "a" (String Str.LF "  say HELLO  ")))
  = [(2, "say HELLO")]
  ∧ take 10 (find_matching_lines "Hello" (String "a" (String Str.LF "  say HELLO  "))) ≠ [].
Proof.
  split; [by vm_compute|].
  apply (proj2 (proj2 (matching_lines_are_genuine "Hello"
                         (String "a" (String Str.LF "  say HELLO  ")) eq_refl eq_refl))).
  - by vm_compute.
  - apply (bool_decide_unpack _). by vm_compute.
Defined.

(** * Content matches *)

Lemma journal_free_ret {A} (a : A) : journal_free (mret a).
Proof. by intros w w' Hw. Qed.

Lemma journal_free_bind {A B} (m : M A) (f : A → M B) :
  journal_free m → (∀ a, journal_free (f a)) → journal_free (m ≫= f).
Proof.
  intros Hm Hf w w' Hw. destruct (Hm w w' Hw) as [Ho Hw1].
  unfold mbind, M_bind. destruct (m w) as [o1 w1], (m w') as [o1' w1']. simpl in *.
  subst o1'. destruct o1 as [a|e]; [by apply Hf|done].
Qed.

Lemma journal_free_try_catch {A} (body : M A) classes (handler : exn → M A) :
  journal_free body → (∀ e, journal_free (handler e)) →
  journal_free (try_catch body classes handler).
Proof.
  intros Hb Hh w w' Hw. destruct (Hb w w' Hw) as [Ho Hw1].
  unfold try_catch. destruct (body w) as [o1 w1], (body w') as [o1' w1']. simpl in *.
  subst o1'. destruct o1 as [a|e]; [done|]. destruct (classes e); [by apply Hh|done].
Qed.

Lemma journal_free_sys {A} c p (k : World → outcome A * World) :
  journal_free k → journal_free (Path.sys c p k).
Proof.
  intros Hk w w' Hw.
  assert (Hrec : same_disk (record_call c p w) (record_call c p w'))
    by (by destruct Hw as (? & ? & ?)).
  unfold Path.sys. destruct Hw as (_ & -> & _).
  destruct (faults w c p); [done|by apply Hk].
Qed.

(** What [_get_file_info] returns depends on the tree, the resolution and
    the faults only, not on the calls made before. *)
Lemma get_file_info_same_disk q w w' :
  same_disk w w' → (_get_file_info q w').1 = (_get_file_info q w).1.
Proof.
  assert (Hfree : journal_free (_get_file_info q)).
  { apply journal_free_try_catch; [|intros e; apply journal_free_ret].
    apply journal_free_bind.
    { apply journal_free_sys. intros w1 w1' Hw1.
      rewrite (same_disk_node_at w1 w1' q Hw1).
      by destruct (node_at w1 q) as [[|d]|]. }
    intros st_size. apply journal_free_bind.
    { apply journal_free_sys. intros w1 w1' Hw1.
      by rewrite (same_disk_node_at w1 w1' q Hw1). }
    intros is_file. apply journal_free_bind.
    { apply journal_free_sys. intros w1 w1' Hw1.
      by rewrite (same_disk_node_at w1 w1' q Hw1). }
    intros is_dir. apply journal_free_ret. }
  intros Hw. apply (Hfree w w' Hw).
Qed.

Section BackedSearch.

Context (cfg : Config) (self : SecureFileManager) (w0 : World).

Lemma steady_readonly {A} (m : M A) : readonly m → track (same_disk w0) m (λ _, True).
Proof.
  intros Hro w Hw. unfold wp. split; [|by destruct (m w).1].
  eapply same_disk_trans; [done|apply Hro].
Qed.

Lemma steady_is_path_allowed q :
  track (same_disk w0) (_is_path_allowed self q) (λ b, b = allowed_in self w0 q).
Proof.
  intros w Hw. unfold wp. rewrite is_path_allowed_eval. simpl.
  split; [done|]. by apply same_disk_allowed_in.
Qed.

Lemma steady_stat q : track (same_disk w0) (Path.stat q) (λ st_size, st_size = size_at w0 q).
Proof.
  intros w Hw. pose proof (readonly_stat q w) as Hro.
  unfold wp, Path.stat, Path.sys in *. destruct (faults w SysStat q).
  - split; [by eapply same_disk_trans|done].
  - rewrite node_at_record_call in *. unfold size_at.
    rewrite <- (same_disk_node_at w0 w) by done.
    destruct (node_at w q) as [[|d]|]; simpl in *;
      (split; [by eapply same_disk_trans|done]).
Qed.

Lemma steady_read_text q :
  track (same_disk w0) (Path.read_text q)
        (λ text, ∃ d, node_at w0 q = Some (File d) ∧ Str.utf8_valid d = true
                      ∧ text = Str.universal_newlines d).
Proof.
  intros w Hw. pose proof (readonly_read_text q w) as Hro.
  unfold wp, Path.read_text, Path.sys in *. destruct (faults w SysReadText q).
  - split; [by eapply same_disk_trans|done].
  - rewrite node_at_record_call in *.
    rewrite (same_disk_node_at w0 w) in * by done.
    destruct (node_at w0 q) as [[|d]|]; simpl in *;
      try (split; [by eapply same_disk_trans|done]).
    destruct (Str.utf8_valid d) eqn:Hu; simpl in *;
      (split; [by eapply same_disk_trans|]); [by exists d|done].
Qed.

Lemma steady_get_file_info q :
  track (same_disk w0) (_get_file_info q)
        (λ info, (_get_file_info q w0).1 = Returned info).
Proof.
  intros w Hw. unfold wp. split.
  - eapply same_disk_trans; [done|apply readonly_get_file_info].
  - rewrite <- (get_file_info_same_disk q w0 w Hw).
    by destruct (_get_file_info q w).1.
Qed.

Lemma backed_search_content pattern item match_info :
  allowed_in self w0 item = true → _is_extension_allowed cfg item = true →
  (_get_file_info item w0).1 = Returned (sm_info match_info) →
  backed cfg self pattern w0 match_info →
  track (same_disk w0) (search_content cfg pattern item match_info) (backed cfg self pattern w0).
Proof.
  intros Ha He Hi Hm. apply track_try_catch; [|intros e; by apply track_ret].
  eapply track_bind; [apply steady_stat|]. intros st_size ->.
  destruct (size_at w0 item <=? MAX_FILE_SIZE cfg) eqn:Hs; [|by apply track_ret].
  eapply track_bind; [apply steady_read_text|]. intros text (d & Hn & Hu & ->).
  destruct (Str.contains _ _) eqn:Hc; [|by apply track_ret].
  apply track_ret. unfold backed. simpl. exists item, d.
  repeat split; try done. unfold size_at in Hs. rewrite Hn in Hs. by apply Z.leb_le.
Qed.

Lemma backed_search_item pattern include_content item matches :
  Forall (backed cfg self pattern w0) matches →
  track (same_disk w0) (search_item cfg self pattern include_content item matches)
        (Forall (backed cfg self pattern w0)).
Proof.
  intros Hms. unfold search_item.
  eapply track_bind; [apply steady_is_path_allowed|]. intros allowed ->.
  destruct (allowed_in self w0 item) eqn:Ha; simpl; [|by apply track_ret].
  destruct (Str.contains _ _); [|by apply track_ret].
  eapply track_bind; [apply steady_get_file_info|]. intros info Hinfo.
  eapply (track_bind _ _ _ (backed cfg self pattern w0)).
  - destruct include_content; [|by apply track_ret].
    eapply track_bind; [apply steady_readonly, readonly_is_file|]. intros is_file _.
    destruct is_file; simpl; [|by apply track_ret].
    destruct (_is_extension_allowed cfg item) eqn:He; [|by apply track_ret].
    by apply backed_search_content.
  - intros m Hm. apply track_ret. apply Forall_app. split; [done|].
    by apply Forall_singleton.
Qed.

Lemma backed_search_files search_dir pattern include_content :
  track (same_disk w0) (search_files cfg self search_dir pattern include_content)
        (λ r, ∀ payload, r = Ok payload →
                Forall (backed cfg self pattern w0) (sr_matches payload)).
Proof.
  apply track_try_catch; [|intros e; by apply track_ret].
  eapply track_bind; [apply steady_is_path_allowed|]. intros allowed _.
  destruct (negb allowed); [by apply track_ret|].
  eapply track_bind; [apply steady_readonly, readonly_exists|]. intros ex _.
  eapply (track_bind _ _ _ (λ _, True)); [|intros is_dir _].
  { destruct ex; [apply steady_readonly, readonly_is_dir|by apply track_ret]. }
  destruct (_ || _); [by apply track_ret|].
  eapply track_bind; [apply steady_readonly, readonly_rglob|]. intros entries _.
  eapply (track_bind _ _ _ (Forall (backed cfg self pattern w0))).
  - apply track_for_each; [done|]. intros item acc Hacc. by apply backed_search_item.
  - intros ms Hms. apply track_ret. by intros payload [= <-].
Qed.

End BackedSearch.

(** X13.  A content match is backed by the file it reports.  For every
    match of kind [content] that a search reports there is an entry whose
    metadata, as [_get_file_info] gives them, are the ones the match carries,
    that passes the path check and the extension check and is a file of at
    most [MAX_FILE_SIZE] bytes of valid UTF-8; the match carries matching
    lines.  When the pattern and the file are ASCII (where the model's
    lower-casing and stripping are the source's), the text of the file
    contains the pattern, letter case ignored, and the matching lines are
    the first ten matching lines of that text.  A match of kind [filename]
    carries no matching lines. *)
Theorem content_matches_are_backed (cfg : Config) (self : SecureFileManager)
    (search_dir pattern : string) (include_content : bool) (w w' : World)
    (payload : SearchPayload) (m : SearchMatch) :
  search_files cfg self search_dir pattern include_content w = (Returned (Ok payload), w') →
  m ∈ sr_matches payload →
  match sm_match_type m with
  | filename => sm_matching_lines m = None
  | content =>
      ∃ item d,
        (_get_file_info item w).1 = Returned (sm_info m)
        ∧ node_at w item = Some (File d)
        ∧ allowed_in self w item = true
        ∧ _is_extension_allowed cfg item = true
        ∧ Str.len d <= MAX_FILE_SIZE cfg
        ∧ Str.utf8_valid d = true
        ∧ is_Some (sm_matching_lines m)
        ∧ (Str.is_ascii pattern = true → Str.is_ascii d = true →
           Str.contains (Str.lower pattern) (Str.lower (Str.universal_newlines d)) = true
           ∧ sm_matching_lines m
             = Some (take 10 (find_matching_lines pattern (Str.universal_newlines d))))
  end.
Proof.
  intros Hrun Hm.
  destruct (track_run _ _ _ _ _ _
              (backed_search_files cfg self w search_dir pattern include_content)
              (same_disk_refl w) Hrun) as [_ Hall].
  specialize (Hall payload eq_refl). rewrite Forall_forall in Hall.
  apply (Hall m Hm).
Qed.

Lemma content_matches_are_backed_witness :
  ∃ payload w' m,
    search_files module_config sandbox_manager "/sandbox" "hello" true fifty_world
    = (Returned (Ok payload), w')
    ∧ m ∈ sr_matches payload
    ∧ sm_match_type m = content
    ∧ info_name (sm_info m) = "hello.txt"
    ∧ ∃ item d,
        (_get_file_info item fifty_world).1 = Returned (sm_info m)
        ∧ node_at fifty_world item = Some (File d)
        ∧ is_Some (sm_matching_lines m).
Proof.
  assert (Hrun : ∃ payload w' m,
             search_files module_config sandbox_manager "/sandbox" "hello" true fifty_world
             = (Returned (Ok payload), w')
             ∧ sr_matches payload = [m] ∧ sm_match_type m = content
             ∧ info_name (sm_info m) = "hello.txt").
  { eexists _, _, _. split; [vm_compute; reflexivity|]. repeat split; reflexivity. }
  destruct Hrun as (payload & w' & m & Hrun & Hms & Hty & Hname).
  assert (Hm : m ∈ sr_matches payload) by (rewrite Hms; left).
  pose proof (content_matches_are_backed module_config sandbox_manager "/sandbox" "hello"
                true fifty_world w' payload m Hrun Hm) as H.
  rewrite Hty in H. destruct H as (item & d & Hi & Hn & _ & _ & _ & _ & Hl & _).
  exists payload, w', m. split; [exact Hrun|]. split; [exact Hm|]. split; [exact Hty|].
  split; [exact Hname|]. exists item, d. split; [exact Hi|]. split; [exact Hn|exact Hl].
Defined.

(** * Searches that cannot fail *)

Section Settles.

Context (I : World → Prop).

Lemma settles_ret {A} (a : A) (R : A → Prop) E : R a → settles I (mret a) R E.
Proof. intros Ha w Hw. by apply wp_ret. Qed.

Lemma settles_bind {A B} (m : M A) (f : A → M B) (R1 : A → Prop) (R : B → Prop) E :
  settles I m R1 E → (∀ a, R1 a → settles I (f a) R E) → settles I (m ≫= f) R E.
Proof.
  intros Hm Hf w Hw. apply wp_bind. eapply wp_mono; [|by apply Hm].
  intros [a|e] w' [Hw' Ha]; simpl; [by apply Hf|done].
Qed.

Lemma settles_try_catch {A} (body : M A) (classes : exn → bool) (handler : exn → M A)
    (R : A → Prop) (E1 E : exn → Prop) :
  settles I body R E1 →
  (∀ e, E1 e → classes e = true → settles I (handler e) R E) →
  (∀ e, E1 e → classes e = false → E e) →
  settles I (try_catch body classes handler) R E.
Proof.
  intros Hb Hh He w Hw. apply wp_try_catch. eapply wp_mono; [|by apply Hb].
  intros [a|e] w' [Hw' Ha]; simpl; [done|].
  destruct (classes e) eqn:Hc; [by apply Hh|]. split; [done|by apply He].
Qed.

Lemma settles_for_each {A S} (xs : list A) (body : A → S → M S) (R : S → Prop) E acc :
  R acc → (∀ x acc, R acc → settles I (body x acc) R E) →
  settles I (for_each xs body acc) R E.
Proof.
  intros Hacc Hbody w Hw.
  eapply wp_mono;
    [|apply (wp_for_each xs body (λ a w', I w' ∧ R a) (λ e w', I w' ∧ E e)); [done|]].
  - by intros [a|e] w' H.
  - intros x a w1 _ [Hw1 Ha]. eapply wp_mono; [|by apply Hbody].
    by intros [a'|e] w' H.
Qed.

End Settles.

Section Faultless.

Context (cfg : Config) (self : SecureFileManager) (w0 : World).
Hypothesis Hfaultless : faultless w0.

Lemma faultless_call {A} c q (k : World → outcome A * World) (R : A → Prop) E :
  (∀ w, same_disk w0 w →
        same_disk w0 (k w).2 ∧ match (k w).1 with
                               | Returned a => R a
                               | Raised e => E e
                               end) →
  settles (same_disk w0) (Path.sys c q k) R E.
Proof.
  intros Hk w Hw. unfold wp, Path.sys.
  destruct Hw as (Hc & Hf & Hs). rewrite Hf, Hfaultless. by apply Hk.
Qed.

Lemma faultless_exists q :
  settles (same_disk w0) (Path.exists_ q)
          (λ b, b = bool_decide (is_Some (node_at w0 q))) never.
Proof.
  apply faultless_call. intros w Hw. simpl. split; [done|].
  by rewrite (same_disk_node_at w0 w).
Qed.

Lemma faultless_is_file q :
  settles (same_disk w0) (Path.is_file q)
          (λ b, b = match node_at w0 q with Some (File _) => true | _ => false end) never.
Proof.
  apply faultless_call. intros w Hw. simpl. split; [done|].
  by rewrite (same_disk_node_at w0 w).
Qed.

Lemma faultless_is_dir q :
  settles (same_disk w0) (Path.is_dir q)
          (λ b, b = match node_at w0 q with Some Dir => true | _ => false end) never.
Proof.
  apply faultless_call. intros w Hw. simpl. split; [done|].
  by rewrite (same_disk_node_at w0 w).
Qed.

Lemma faultless_stat q d :
  node_at w0 q = Some (File d) →
  settles (same_disk w0) (Path.stat q) (λ _, True) never.
Proof.
  intros Hn. apply faultless_call. intros w Hw.
  rewrite (same_disk_node_at w0 w), Hn by done. by split.
Qed.

Lemma faultless_read_text q d :
  node_at w0 q = Some (File d) →
  settles (same_disk w0) (Path.read_text q) (λ _, True) (λ e, e = UnicodeDecodeError).
Proof.
  intros Hn. apply faultless_call. intros w Hw.
  rewrite (same_disk_node_at w0 w), Hn by done.
  by destruct (Str.utf8_valid d).
Qed.

Lemma faultless_rglob q :
  settles (same_disk w0) (Path.rglob q) (λ _, True) never.
Proof.
  apply faultless_call. intros w Hw. by destruct (canon w q).
Qed.

Lemma settles_is_path_allowed q :
  settles (same_disk w0) (_is_path_allowed self q)
          (λ b, b = allowed_in self w0 q) never.
Proof.
  intros w Hw. unfold wp. rewrite is_path_allowed_eval. simpl.
  split; [done|]. by apply same_disk_allowed_in.
Qed.

Lemma settles_get_file_info q :
  settles (same_disk w0) (_get_file_info q) (λ _, True) never.
Proof.
  intros w Hw. apply wp_get_file_info. intros info w' Hw'. split; [|done].
  by eapply same_disk_trans.
Qed.

Lemma faultless_search_content pattern item match_info d :
  node_at w0 item = Some (File d) →
  settles (same_disk w0) (search_content cfg pattern item match_info) (λ _, True) never.
Proof.
  intros Hn.
  apply (settles_try_catch _ _ _ _ _ (λ e, e = UnicodeDecodeError)).
  - eapply (settles_bind _ _ _ (λ _, True)).
    { intros w Hw. eapply wp_mono; [|by apply (faultless_stat item d Hn)].
      intros [a|e] w' [? H]; [done|destruct H]. }
    intros st_size _. destruct (_ <=? _); [|by apply settles_ret].
    eapply settles_bind; [by apply (faultless_read_text item d)|].
    intros text _. destruct (Str.contains _ _); by apply settles_ret.
  - intros e -> _. by apply settles_ret.
  - by intros e ->.
Qed.

Lemma faultless_search_item pattern include_content item matches :
  settles (same_disk w0) (search_item cfg self pattern include_content item matches)
          (λ _, True) never.
Proof.
  unfold search_item.
  eapply settles_bind; [apply settles_is_path_allowed|]. intros allowed _.
  destruct (negb allowed); [by apply settles_ret|].
  destruct (Str.contains _ _); [|by apply settles_ret].
  eapply settles_bind; [apply settles_get_file_info|]. intros info _.
  eapply (settles_bind _ _ _ (λ _, True)); [|intros m _; by apply settles_ret].
  destruct include_content; [|by apply settles_ret].
  eapply settles_bind; [apply faultless_is_file|]. intros is_file ->.
  destruct (node_at w0 item) as [[|d]|] eqn:Hn; simpl; try by apply settles_ret.
  destruct (_is_extension_allowed cfg item); [|by apply settles_ret].
  by apply (faultless_search_content pattern item _ d).
Qed.

Lemma faultless_search_files search_dir pattern include_content :
  allowed_in self w0 search_dir = true → node_at w0 search_dir = Some Dir →
  settles (same_disk w0) (search_files cfg self search_dir pattern include_content)
          (λ r, ∃ payload, r = Ok payload) never.
Proof.
  intros Ha Hn.
  apply (settles_try_catch _ _ _ _ _ never); [|by intros e []..].
  eapply settles_bind; [apply settles_is_path_allowed|]. intros allowed ->.
  rewrite Ha. simpl.
  eapply settles_bind; [apply faultless_exists|]. intros ex ->.
  rewrite Hn, bool_decide_eq_true_2 by done. simpl.
  eapply settles_bind; [apply faultless_is_dir|]. intros is_dir ->.
  rewrite Hn. simpl.
  eapply settles_bind; [apply faultless_rglob|]. intros entries _.
  eapply (settles_bind _ _ _ (λ _, True)).
  - apply settles_for_each; [done|]. intros item acc _. apply faultless_search_item.
  - intros ms _. apply settles_ret. by eexists.
Qed.

End Faultless.


